(** * strava_activity.py: token cache, activity retrieval and yap score

    A shallow embedding of [src/strava_activity.py].  Python values that
    come out of [json.load] or [response.json()] are terms of [json];
    the token file, the console and the network are an explicit state
    and an event trace; the remote parties and the clock are read from
    an [env] record. *)

From Stdlib Require Import QArith DecimalString Ascii.
From stdpp Require Import gmap list strings.

Local Close Scope Q_scope.
Local Open Scope nat_scope.

(** ** Exceptions and results *)

(** The subclasses of [requests.exceptions.RequestException] that the
    calls of this script can meet. *)
Inductive request_error :=
  | HTTPError
  | ConnectionError
  | Timeout
  | TooManyRedirects
  | InvalidJSON.

(** The exceptions met in the script; [AddressInUse] is the [OSError]
    of a listener that cannot bind its port. *)
Inductive exn :=
  | FileNotFoundError
  | IsADirectoryError
  | AddressInUse
  | UnicodeDecodeError
  | JSONDecodeError
  | KeyError
  | IndexError
  | TypeError
  | AttributeError
  | ValueError
  | OverflowError
  | RequestException (k : request_error).

(** What running a piece of the script comes to: a value, an exception
    that leaves it, or no end at all (the wait loop of line 90). *)
Inductive outcome (A : Type) :=
  | Returns (a : A)
  | Raises (e : exn)
  | Diverges.
Arguments Returns {A} a.
Arguments Raises {A} e.
Arguments Diverges {A}.

#[export] Instance outcome_ret : MRet outcome := λ A a, Returns a.
#[export] Instance outcome_bind : MBind outcome := λ A B k o,
  match o with
  | Returns a => k a
  | Raises e => Raises e
  | Diverges => Diverges
  end.

(** ** Strings

    A Python [str] is a sequence of Unicode code points. *)
Abbreviation char := N (only parsing).
Abbreviation str := (list N) (only parsing).

Definition lit (s : string) : str := N_of_ascii <$> String.list_ascii_of_string s.

Arguments lit : simpl never.

Definition LF : char := 10%N.

(** [str.isspace] on one code point, the set used by [str.split()] and
    [str.strip()] without arguments. *)
Definition isspace (c : char) : bool :=
  ((9 <=? c) && (c <=? 13) || (28 <=? c) && (c <=? 32)
   || (c =? 133) || (c =? 160) || (c =? 5760)
   || (8192 <=? c) && (c <=? 8202)
   || (c =? 8232) || (c =? 8233) || (c =? 8239) || (c =? 8287)
   || (c =? 12288))%N.

(** [str.split()] without a separator: the words between runs of
    whitespace, no empty word. *)
Fixpoint split_whitespace (s : str) : list str :=
  match s with
  | [] => []
  | c :: s' =>
      if isspace c then split_whitespace s'
      else
        let rest := split_whitespace s' in
        match s' with
        | d :: _ =>
            if isspace d then [c] :: rest
            else match rest with
                 | w :: ws => (c :: w) :: ws
                 | [] => [[c]]
                 end
        | [] => [[c]]
        end
  end.

(** Lines 197-207. *)
Definition count_words (text : str) : nat := length (split_whitespace text).

(** [str.lstrip()], [str.rstrip()] and [str.strip()] without arguments. *)
Fixpoint lstrip (s : str) : str :=
  match s with
  | c :: s' => if isspace c then lstrip s' else s
  | [] => []
  end.

Definition rstrip (s : str) : str := reverse (lstrip (reverse s)).

Definition strip (s : str) : str := rstrip (lstrip s).

(** [s.startswith(sep)]. *)
Fixpoint startswith (sep s : str) : bool :=
  match sep, s with
  | [], _ => true
  | a :: sep', b :: s' => (a =? b)%N && startswith sep' s'
  | _ :: _, [] => false
  end.

(** [s.find(sep)]: the lowest index at which [sep] occurs, [None] for
    Python's [-1]. *)
Fixpoint find (sep s : str) {struct s} : option nat :=
  if startswith sep s then Some 0
  else match s with
       | [] => None
       | _ :: s' => S <$> find sep s'
       end.

(** [sep in s] for two strings. *)
Definition contains (sep s : str) : bool :=
  match find sep s with Some _ => true | None => false end.

(** [s.split(sep)]: cut at each occurrence of [sep], left to right, an
    occurrence starting where the previous one ended at the earliest.
    Each cut consumes at least one character when [sep] is not empty,
    so [length s] rounds are enough. *)
Fixpoint split_rounds (rounds : nat) (sep s : str) : list str :=
  match rounds, find sep s with
  | S rounds', Some i => take i s :: split_rounds rounds' sep (drop (i + length sep) s)
  | _, _ => [s]
  end.

Definition split (sep s : str) : outcome (list str) :=
  match sep with
  | [] => Raises ValueError
  | _ => Returns (split_rounds (length s) sep s)
  end.

(** [str(n)] for a non-negative [int]. *)
Definition decimal (n : nat) : str := lit (NilEmpty.string_of_uint (Nat.to_uint n)).

(** ** Values

    A JSON number read by Python is an [int] or a [float]; comparison
    between the two is exact, so a number is kept as the rational it
    denotes, next to the three special floats that [json] also reads. *)
Inductive number :=
  | Finite (q : Q)
  | PosInfinity
  | NegInfinity
  | NaN.

#[warnings="-register-all"]
Inductive json :=
  | JNull
  | JBool (b : bool)
  | JNum (x : number)
  | JStr (s : str)
  | JArr (l : list json)
  | JObj (m : gmap str json).

(** [bool(v)], as [if v:] and [not v] compute it. *)
Definition truthy (v : json) : bool :=
  match v with
  | JNull => false
  | JBool b => b
  | JNum (Finite q) => negb (Qeq_bool q 0)
  | JNum _ => true
  | JStr s => negb (bool_decide (length s = 0))
  | JArr l => negb (bool_decide (length l = 0))
  | JObj m => negb (bool_decide (size m = 0))
  end.

Arguments truthy : simpl never.

(** [v[key]] for a string key. *)
Definition getitem (v : json) (key : str) : outcome json :=
  match v with
  | JObj m => match m !! key with
              | Some x => Returns x
              | None => Raises KeyError
              end
  | _ => Raises TypeError
  end.

(** [v[0]]. *)
Definition getitem0 (v : json) : outcome json :=
  match v with
  | JArr (x :: _) => Returns x
  | JArr [] => Raises IndexError
  | JStr (c :: _) => Returns (JStr [c])
  | JStr [] => Raises IndexError
  | JObj _ => Raises KeyError
  | _ => Raises TypeError
  end.

(** [v[key] = x]. *)
Definition setitem (v : json) (key : str) (x : json) : outcome json :=
  match v with
  | JObj m => Returns (JObj (<[key := x]> m))
  | _ => Raises TypeError
  end.

(** [v.get(key, default)]: only a [dict] has the method. *)
Definition dict_get (v : json) (key : str) (default : json) : outcome json :=
  match v with
  | JObj m => Returns (match m !! key with
                       | Some x => x
                       | None => default
                       end)
  | _ => Raises AttributeError
  end.

(** The number a value stands for in arithmetic and comparison with a
    [float]; [bool] is a subclass of [int]. *)
Definition as_number (v : json) : outcome number :=
  match v with
  | JNum x => Returns x
  | JBool b => Returns (Finite (if b then 1 else 0)%Q)
  | _ => Raises TypeError
  end.

(** [t < x] for a finite float [t]. *)
Definition before (t : Q) (x : number) : bool :=
  match x with
  | Finite q => match Qcompare t q with
                | Lt => true
                | _ => false
                end
  | PosInfinity => true
  | NegInfinity | NaN => false
  end.

(** ** The token file, the console and the network *)

(** What [json.load] makes of a file: bytes that are not text in the
    encoding of the locale ([UnicodeDecodeError]), text that is not
    JSON ([JSONDecodeError]), or the value of a JSON document. *)
Inductive content :=
  | Garbled
  | NotJson
  | Doc (v : json).

(** What stands under the name ['strava_tokens.json']: nothing, a
    directory, which can be neither opened nor removed as a file, or a
    file. *)
Inductive token_file :=
  | Missing
  | Directory
  | Stored (c : content).

(** A response of [requests]: its status, and its body as
    [Response.json] reads it ([None]: the body is not JSON). *)
Record response := { status_code : Z; json_body : option json }.

(** What a call of [requests] comes to: an exception of [requests], or
    a response. *)
Inductive reply :=
  | Fails (k : request_error)
  | Responds (r : response).

(** The lines the script prints, one constructor per [print]. *)
Inductive message :=
  | UsingExistingToken
  | StartingOAuthFlow
  | TokenExpired
  | NoActivitiesFound (athlete_id : Z)
  | ErrorMakingRequest (k : request_error)
  | ErrorUpdatingActivity (k : request_error)
  | GettingAccessToken
  | AccessTokenReceived
  | FetchingActivity
  | UpdatingDescription
  | UpdatedSuccessfully (word_count : nat)
  | FailedToUpdate.

(** What the script does to the outside, in order.  A file or network
    event stands for the call being made, whatever comes of it. *)
Inductive event :=
  | Console (m : message)
  | OpenRead
  | OpenWrite
  | Remove
  | Listen
  | Browser (client_id : str)
  | CloseListener
  | Post (client_id client_secret code : str)
  | Get (access_token : json) (athlete_id : Z)
  | Put (access_token activity_id : json) (description : str).

(** What the script reads from the outside: the clock at the two places
    it is read, whether port 8000 is free, the code the listener holds
    when the wait loop ends ([None]: no request with a code ever
    comes), and the three endpoints. *)
Record env := {
  time_at_load : Q;
  port_free : bool;
  auth_code : option str;
  token_endpoint : str → str → str → reply;
  time_at_exchange : Q;
  activities_endpoint : json → Z → reply;
  update_endpoint : json → json → str → reply;
}.

(** A piece of the script: from the token file before it to its
    outcome, the token file after it and the events it caused. *)
Definition M (A : Type) : Type := token_file → outcome A * token_file * list event.

#[export] Instance M_ret : MRet M := λ A a file, (Returns a, file, []).
#[export] Instance M_bind : MBind M := λ A B k m file,
  match m file with
  | (Returns a, file', evs) =>
      let '(o, file'', evs') := k a file' in (o, file'', evs ++ evs')
  | (Raises e, file', evs) => (Raises e, file', evs)
  | (Diverges, file', evs) => (Diverges, file', evs)
  end.

Definition raise {A} (e : exn) : M A := λ file, (Raises e, file, []).

Definition emit (ev : event) : M unit := λ file, (Returns tt, file, [ev]).

Definition pure {A} (o : outcome A) : M A := λ file, (o, file, []).

(** [try: body except ...: handler]; [handler e] is [None] when no
    [except] clause matches [e]. *)
Definition try_except {A} (body : M A) (handler : exn → option (M A)) : M A := λ file,
  match body file with
  | (Raises e, file', evs) =>
      match handler e with
      | Some h => let '(o, file'', evs') := h file' in (o, file'', evs ++ evs')
      | None => (Raises e, file', evs)
      end
  | r => r
  end.

(** [open('strava_tokens.json', 'r')] and the read of the whole file. *)
Definition open_read : M content := λ file,
  match file with
  | Missing => (Raises FileNotFoundError, file, [OpenRead])
  | Directory => (Raises IsADirectoryError, file, [OpenRead])
  | Stored c => (Returns c, file, [OpenRead])
  end.

(** [json.load]. *)
Definition json_load (c : content) : M json :=
  match c with
  | Garbled => raise UnicodeDecodeError
  | NotJson => raise JSONDecodeError
  | Doc v => mret v
  end.

(** [open('strava_tokens.json', 'w')] followed by [json.dump]. *)
Definition open_write_dump (v : json) : M unit := λ file,
  match file with
  | Directory => (Raises IsADirectoryError, file, [OpenWrite])
  | _ => (Returns tt, Stored (Doc v), [OpenWrite])
  end.

(** [os.remove('strava_tokens.json')]. *)
Definition os_remove : M unit := λ file,
  match file with
  | Missing => (Raises FileNotFoundError, file, [Remove])
  | Directory => (Raises IsADirectoryError, file, [Remove])
  | Stored _ => (Returns tt, Missing, [Remove])
  end.

(** [Response.raise_for_status] of [requests]: an [HTTPError] for a
    status from 400 to 599, nothing otherwise. *)
Definition raise_for_status (r : response) : M unit :=
  if ((400 <=? status_code r) && (status_code r <? 600))%Z
  then raise (RequestException HTTPError)
  else mret tt.

(** [Response.json]: the exception of [requests] for a body that is
    not JSON is a [RequestException]. *)
Definition response_json (r : response) : M json :=
  match json_body r with
  | Some v => mret v
  | None => raise (RequestException InvalidJSON)
  end.

(** [requests.post], [requests.get] and [requests.put]. *)
Definition request (ev : event) (answer : reply) : M response :=
  emit ev;;
  match answer with
  | Fails k => raise (RequestException k)
  | Responds r => mret r
  end.

Definition marker : str := lit "yap score:".
Arguments marker : simpl never.

(** [needle in v]. *)
Definition py_in (needle : str) (v : json) : outcome bool :=
  match v with
  | JStr s => Returns (contains needle s)
  | JArr l => Returns (existsb (λ x, match x with
                                     | JStr s => bool_decide (s = needle)
                                     | _ => false
                                     end) l)
  | JObj m => Returns (bool_decide (is_Some (m !! needle)))
  | _ => Raises TypeError
  end.

(** [v.split(sep)] and [v.split()]: only a [str] has the method. *)
Definition split_method (v : json) (sep : str) : outcome (list str) :=
  match v with
  | JStr s => split sep s
  | _ => Raises AttributeError
  end.

(** Line 207, on whatever the caller passes. *)
Definition count_words_of (text : json) : outcome nat :=
  match text with
  | JStr s => Returns (count_words s)
  | _ => Raises AttributeError
  end.

(** [l[0]] for a list of pieces. *)
Definition first {A} (l : list A) : outcome A :=
  match l with
  | x :: _ => Returns x
  | [] => Raises IndexError
  end.

Definition CLIENT_ID : str := lit "53125".
Definition CLIENT_SECRET : str := lit "427e02289db9cea08b79d7c325e8f21a36b1624e".
Definition ATHLETE_ID : Z := 32922412.

Section Script.

(** Two operations of the Python runtime are left open: the text an
    f-string gives for a value that is not a [str], and the rounded
    sum of a [float] and a number ([None]: [OverflowError]). *)
Variable format_value : json → str.
Variable float_add : Q → number → option number.

Variable E : env.

(** Lines 33-43. *)
Definition load_tokens : M json :=
  found ← try_except
    (c ← open_read;
     tokens ← json_load c;
     let now := time_at_load E in
     expires_at ← pure (getitem tokens (lit "expires_at"));
     limit ← pure (as_number expires_at);
     if before now limit then mret (Some tokens) else mret None)
    (λ e, match e with
          | FileNotFoundError | JSONDecodeError => Some (mret None)
          | _ => None
          end);
  match found with
  | Some tokens => mret tokens
  | None => mret JNull
  end.

(** Lines 45-48. *)
Definition save_tokens (tokens : json) : M unit := open_write_dump tokens.

(** Lines 67-114: the interactive flow that [get_access_token] enters
    when it has no token to reuse. *)
Definition authorization_flow (client_id client_secret : str) : M json :=
  emit (Console StartingOAuthFlow);;
  emit Listen;;
  (if port_free E then mret tt else raise AddressInUse);;
  emit (Browser client_id);;
  code ← match auth_code E with
         | Some code => mret code
         | None => pure Diverges
         end;
  emit CloseListener;;
  resp ← request (Post client_id client_secret code)
                 (token_endpoint E client_id client_secret code);
  raise_for_status resp;;
  tokens ← response_json resp;
  let now := time_at_exchange E in
  expires_in ← pure (getitem tokens (lit "expires_in"));
  span ← pure (as_number expires_in);
  expires_at ← match float_add now span with
               | Some x => mret x
               | None => raise OverflowError
               end;
  tokens ← pure (setitem tokens (lit "expires_at") (JNum expires_at));
  save_tokens tokens;;
  pure (getitem tokens (lit "access_token")).

(** Lines 50-114. *)
Definition get_access_token (client_id client_secret : str) : M json :=
  tokens ← load_tokens;
  if truthy tokens then
    emit (Console UsingExistingToken);;
    pure (getitem tokens (lit "access_token"))
  else authorization_flow client_id client_secret.

(** Lines 116-165. *)
Definition get_recent_activity (access_token : json) (athlete_id : Z) : M json :=
  try_except
    (resp ← request (Get access_token athlete_id)
                    (activities_endpoint E access_token athlete_id);
     if (status_code resp =? 401)%Z then
       emit (Console TokenExpired);;
       os_remove;;
       mret JNull
     else
       raise_for_status resp;;
       activities ← response_json resp;
       if negb (truthy activities) then
         emit (Console (NoActivitiesFound athlete_id));;
         mret JNull
       else pure (getitem0 activities))
    (λ e, match e with
          | RequestException k => Some (emit (Console (ErrorMakingRequest k));; mret JNull)
          | _ => None
          end).

(** Lines 167-195. *)
Definition update_activity_description (access_token activity_id : json)
    (description : str) : M bool :=
  try_except
    (resp ← request (Put access_token activity_id description)
                    (update_endpoint E access_token activity_id description);
     raise_for_status resp;;
     mret true)
    (λ e, match e with
          | RequestException k => Some (emit (Console (ErrorUpdatingActivity k));; mret false)
          | _ => None
          end).

(** The text an f-string puts for [{v}]. *)
Definition format (v : json) : str :=
  match v with
  | JStr s => s
  | _ => format_value v
  end.

(** Lines 226-234: the new description and the word count. *)
Definition new_description (activity : json) : outcome (str * nat) :=
  current_description ← dict_get activity (lit "description") (JStr []);
  title ← dict_get activity (lit "name") (JStr []);
  word_count ← count_words_of title;
  found ← py_in marker current_description;
  current_description ←
    (if found : bool then
       pieces ← split_method current_description marker;
       prefix ← first pieces;
       mret (JStr (strip prefix))
     else mret current_description);
  mret (format current_description ++ [LF; LF] ++ lit "yap score: " ++ decimal word_count,
        word_count).

(** Lines 209-239. *)
Definition main : M unit :=
  emit (Console GettingAccessToken);;
  access_token ← get_access_token CLIENT_ID CLIENT_SECRET;
  emit (Console AccessTokenReceived);;
  emit (Console FetchingActivity);;
  activity ← get_recent_activity access_token ATHLETE_ID;
  if truthy activity then
    emit (Console UpdatingDescription);;
    '(description, word_count) ← pure (new_description activity);
    activity_id ← pure (getitem activity (lit "id"));
    updated ← update_activity_description access_token activity_id description;
    if updated : bool then emit (Console (UpdatedSuccessfully word_count))
    else emit (Console FailedToUpdate)
  else mret tt.

End Script.

(** ** Notions of the specification, for comparison with the code *)

(** The character before position [i] is whitespace, or there is
    none; the character at position [j] is whitespace, or there is
    none. *)
Definition space_before (s : str) (i : nat) : Prop :=
  match i with
  | 0 => True
  | S i' => ∃ c, s !! i' = Some c ∧ isspace c
  end.

Definition space_at_or_end (s : str) (j : nat) : Prop :=
  match s !! j with
  | Some c => isspace c
  | None => True
  end.

(** The characters at positions [i], ..., [j - 1] of [s] are a maximal
    run of non-whitespace characters: a non-empty block without
    whitespace that can be extended neither to the left nor to the
    right. *)
Definition maximal_run (s : str) (i j : nat) : Prop :=
  i < j ∧ j ≤ length s
  ∧ (∀ k c, i ≤ k < j → s !! k = Some c → ¬ isspace c)
  ∧ space_before s i ∧ space_at_or_end s j.

(** [occurs_at sep s i]: [sep] is read in [s] from position [i] on. *)
Definition occurs_at (sep s : str) (i : nat) : Prop :=
  ∃ rest, drop i s = sep ++ rest.

Definition first_occurrence (sep s : str) (i : nat) : Prop :=
  occurs_at sep s i ∧ ∀ j, j < i → ¬ occurs_at sep s j.

Definition absent (sep s : str) : Prop := ∀ i, ¬ occurs_at sep s i.

(** The number of positions of [s] at which [sep] occurs. *)
Fixpoint occurrences (sep s : str) {struct s} : nat :=
  (if startswith sep s then 1 else 0)
  + match s with
    | [] => 0
    | _ :: s' => occurrences sep s'
    end.

(** The time [t] is strictly before [x]. *)
Definition earlier (t : Q) (x : number) : Prop :=
  match x with
  | Finite q => (t < q)%Q
  | PosInfinity => True
  | NegInfinity | NaN => False
  end.

(** A persisted TokenRecord: an object that holds an access token and
    the time at which it expires. *)
Definition token_record (v access_token : json) (expires_at : number) : Prop :=
  ∃ m, v = JObj m
       ∧ m !! lit "access_token" = Some access_token
       ∧ m !! lit "expires_at" = Some (JNum expires_at).

(** Surroundings to run the script in: a sum without rounding, and
    remote parties that answer every request with the same status and
    body, the user handing over the code ["code"] at time 1000. *)
Definition exact_add (t : Q) (x : number) : option number :=
  Some match x with
       | Finite q => Finite (t + q)
       | _ => x
       end.

Definition answering (status : Z) (body : option json) : env :=
  {| time_at_load := 1000;
     port_free := true;
     auth_code := Some (lit "code");
     token_endpoint := λ _ _ _, Responds {| status_code := status; json_body := body |};
     time_at_exchange := 1000;
     activities_endpoint := λ _ _, Responds {| status_code := status; json_body := body |};
     update_endpoint := λ _ _ _, Responds {| status_code := status; json_body := body |} |}.

Definition fresh_tokens : json :=
  JObj (<[lit "access_token" := JStr (lit "abc")]>
        {[lit "expires_in" := JNum (Finite 21600)]}).

Definition saved_tokens : json :=
  JObj (<[lit "expires_at" := JNum (Finite (1000 + 21600))]>
        (<[lit "access_token" := JStr (lit "abc")]>
         {[lit "expires_in" := JNum (Finite 21600)]})).

(** The block that line 234 appends. *)
Definition score_block (word_count : nat) : str :=
  [LF; LF] ++ lit "yap score: " ++ decimal word_count.

(** The update of the description as C5 words it: cut at the first
    occurrence of the marker, keep what stands before it, trim the
    whitespace at its end, append the new score. *)
Definition described_update (description title : str) : str :=
  let prefix := match find marker description with
                | Some i => take i description
                | None => description
                end in
  rstrip prefix ++ score_block (count_words title).

Definition digit (c : char) : Prop := (48 ≤ c ≤ 57)%N.

(** The activity of the end-to-end scenario, and the same with a
    description that begins with a space. *)
Definition morning_run_fields : gmap str json :=
  <[lit "name" := JStr (lit "Morning Run Felt Great")]>
    {[lit "description" := JStr (lit "Nice day" ++ [LF; LF] ++ lit "yap score: 2")]}.

Definition morning_run : json := JObj morning_run_fields.

Definition indented_run : json :=
  JObj (<[lit "name" := JStr (lit "Morning Run Felt Great")]>
        {[lit "description" := JStr (lit " Nice day" ++ [LF; LF] ++ lit "yap score: 2")]}).

(** The maximal runs of non-whitespace characters of [s] read from
    position [pos] on, each as the pair of its first position and of
    the position after its last; [start] is where the run that is
    being read began. *)
Fixpoint runs_from (pos : nat) (start : option nat) (s : str) : list (nat * nat) :=
  match s with
  | [] => match start with
          | Some i => [(i, pos)]
          | None => []
          end
  | c :: s' =>
      if isspace c then
        match start with
        | Some i => (i, pos) :: runs_from (S pos) None s'
        | None => runs_from (S pos) None s'
        end
      else runs_from (S pos) (Some (default pos start)) s'
  end.

Definition runs (s : str) : list (nat * nat) := runs_from 0 None s.

(** What holds of [start] when the reading of [t] has come to [pos]. *)
Definition reading (t : str) (pos : nat) (start : option nat) : Prop :=
  pos ≤ length t ∧
  match start with
  | None => space_before t pos
  | Some a =>
      a < pos ∧ space_before t a
      ∧ ∀ k c, a ≤ k < pos → t !! k = Some c → ¬ isspace c
  end.


(** ** The callback listener *)

(** What [do_GET] sends back: the status and the body. *)
Record page := { page_status : Z; page_body : str }.

(** Lines 12-27, on the query parameters as [urllib.parse.parse_qs]
    returns them: the names that have a value, each with the list of
    its values.  [auth_code] is [self.server.auth_code]; the result is
    its new value and the page sent. *)
Definition do_GET (params : gmap str (list str)) (auth_code : option str)
    : outcome (option str * page) :=
  match params !! lit "code" with
  | Some values =>
      code ← first values;
      mret (Some code,
            {| page_status := 200;
               page_body := lit "Authentication successful! You can close this window." |})
  | None =>
      mret (auth_code,
            {| page_status := 400;
               page_body := lit "Authentication failed. No code received." |})
  end.

(** The thread of the listener answers the requests one after the
    other; a handler that raises sends no page and the listener goes
    on. *)
Fixpoint serve (requests : list (gmap str (list str))) (auth_code : option str)
    : option str * list page :=
  match requests with
  | [] => (auth_code, [])
  | params :: requests' =>
      match do_GET params auth_code with
      | Returns (auth_code', p) =>
          let '(final, pages) := serve requests' auth_code' in (final, p :: pages)
      | _ => serve requests' auth_code
      end
  end.

(** The code that a request carries, if it carries one. *)
Definition code_of (params : gmap str (list str)) : option str :=
  params !! lit "code" ≫= head.

(** A request as [parse_qs] gives it: no name with an empty list of
    values. *)
Definition parsed (params : gmap str (list str)) : Prop :=
  ∀ name, params !! name ≠ Some [].

(** Surroundings in which nobody answers: no request reaches the
    listener and no endpoint can be reached; [free] tells whether port
    8000 is free. *)
Definition unanswered (free : bool) : env :=
  {| time_at_load := 0;
     port_free := free;
     auth_code := None;
     token_endpoint := λ _ _ _, Fails ConnectionError;
     time_at_exchange := 0;
     activities_endpoint := λ _ _, Fails ConnectionError;
     update_endpoint := λ _ _ _, Fails ConnectionError |}.

(** ** Counting events *)

Definition is_post (ev : event) : bool :=
  match ev with
  | Post _ _ _ => true
  | _ => false
  end.

Definition is_get (ev : event) : bool :=
  match ev with
  | Get _ _ => true
  | _ => false
  end.

Definition is_put (ev : event) : bool :=
  match ev with
  | Put _ _ _ => true
  | _ => false
  end.

Definition is_write (ev : event) : bool :=
  match ev with
  | OpenWrite => true
  | _ => false
  end.

Definition is_remove (ev : event) : bool :=
  match ev with
  | Remove => true
  | _ => false
  end.

Definition count (p : event → bool) (evs : list event) : nat :=
  length (List.filter p evs).

(** * Properties *)

(** ** Words and maximal runs *)

Section Runs.

Variable t : str.

(** Where a run that reaches [j] can begin is fixed by [j]. *)
Lemma run_start_unique i j a :
  maximal_run t i j →
  a < j → space_before t a →
  (∀ k c, a ≤ k < j → t !! k = Some c → ¬ isspace c) →
  i = a.
Proof.
  intros (Hij & Hj & Hrun & Hleft & _) Haj Ha Hblock.
  destruct (Nat.lt_trichotomy i a) as [Hlt | [-> | Hgt]]; [| done |].
  - destruct a as [| a']; [lia |].
    destruct Ha as (c & Hc & Hsp).
    exfalso. apply (Hrun a' c); [lia | done | done].
  - destruct i as [| i']; [lia |].
    destruct Hleft as (c & Hc & Hsp).
    exfalso. apply (Hblock i' c); [lia | done | done].
Qed.

(** No run ends where the character before is whitespace or where a
    character that is not whitespace stands. *)
Lemma run_end_not_after_space i j : maximal_run t i j → space_before t j → False.
Proof.
  intros (Hij & Hj & Hrun & _ & _) Hsp.
  destruct j as [| j']; [lia |].
  destruct Hsp as (c & Hc & Hsp).
  apply (Hrun j' c); [lia | done | done].
Qed.

Lemma run_end_not_at_word i j c :
  maximal_run t i j → t !! j = Some c → isspace c = false → False.
Proof.
  intros (_ & _ & _ & _ & Hright) Hc Hns.
  unfold space_at_or_end in Hright. rewrite Hc, Hns in Hright. done.
Qed.

Lemma runs_from_spec s : ∀ pos start,
  drop pos t = s → reading t pos start →
  ∀ i j, (i, j) ∈ runs_from pos start s ↔ maximal_run t i j ∧ pos ≤ j.
Proof.
  induction s as [| c s' IH]; intros pos start Hdrop [Hpos Hinv] i j.
  - assert (pos = length t) as Hlen.
    { apply (f_equal length) in Hdrop. rewrite length_drop in Hdrop. simpl in Hdrop. lia. }
    simpl. destruct start as [a |].
    + destruct Hinv as (Ha & Hleft & Hblock).
      rewrite list_elem_of_singleton. split.
      * intros [= -> ->]. split; [| done].
        repeat split; [done | done | done | done |].
        unfold space_at_or_end. rewrite lookup_ge_None_2; [done | lia].
      * intros [Hrun Hj].
        assert (j = pos) as -> by (destruct Hrun as (_ & ? & _); lia).
        f_equal. eapply run_start_unique; done.
    + rewrite elem_of_nil. split; [done |].
      intros [Hrun Hj].
      assert (j = pos) as -> by (destruct Hrun as (_ & ? & _); lia).
      eapply run_end_not_after_space; done.
  - assert (t !! pos = Some c) as Hc.
    { pose proof (lookup_drop t pos 0) as Hlook.
      rewrite Hdrop, Nat.add_0_r in Hlook. done. }
    assert (drop (S pos) t = s') as Hdrop'.
    { replace (S pos) with (pos + 1) by lia. by rewrite <- drop_drop, Hdrop. }
    assert (S pos ≤ length t) as Hpos'.
    { apply lookup_lt_Some in Hc. lia. }
    simpl. destruct (isspace c) eqn:Hsp.
    + assert (reading t (S pos) None) as Hnext.
      { split; [done |]. exists c. by rewrite Hsp. }
      destruct start as [a |].
      * destruct Hinv as (Ha & Hleft & Hblock).
        rewrite elem_of_cons, (IH _ _ Hdrop' Hnext). split.
        -- intros [[= -> ->] | [Hrun Hj]]; [| split; [done | lia]].
           split; [| done].
           repeat split; [done | lia | done | done |].
           unfold space_at_or_end. by rewrite Hc, Hsp.
        -- intros [Hrun Hj].
           destruct (decide (j = pos)) as [-> | Hne]; [| right; split; [done | lia]].
           left. f_equal. eapply run_start_unique; done.
      * rewrite (IH _ _ Hdrop' Hnext). split; [intros [? ?]; split; [done | lia] |].
        intros [Hrun Hj]. split; [done |].
        destruct (decide (j = pos)) as [-> | Hne]; [| lia].
        exfalso. eapply run_end_not_after_space; done.
    + assert (reading t (S pos) (Some (default pos start))) as Hnext.
      { split; [done |]. destruct start as [a |]; simpl.
        - destruct Hinv as (Ha & Hleft & Hblock).
          split; [lia |]. split; [done |].
          intros k d Hk Hd. destruct (decide (k = pos)) as [-> | Hne].
          + rewrite Hc in Hd. injection Hd as <-. rewrite Hsp. by intros [].
          + apply (Hblock k d); [lia | done].
        - split; [lia |]. split; [done |].
          intros k d Hk Hd. assert (k = pos) as -> by lia.
          rewrite Hc in Hd. injection Hd as <-. rewrite Hsp. by intros []. }
      rewrite (IH _ _ Hdrop' Hnext). split; [intros [? ?]; split; [done | lia] |].
      intros [Hrun Hj]. split; [done |].
      destruct (decide (j = pos)) as [-> | Hne]; [| lia].
      exfalso. eapply run_end_not_at_word; done.
Qed.

End Runs.

Lemma runs_from_ge s : ∀ pos start i j, (i, j) ∈ runs_from pos start s → pos ≤ j.
Proof.
  induction s as [| c s' IH]; intros pos start i j; simpl.
  - destruct start; [| by rewrite elem_of_nil].
    rewrite list_elem_of_singleton. by intros [= -> ->].
  - destruct (isspace c); [destruct start |].
    + rewrite elem_of_cons. intros [[= -> ->] | Hin]; [done |].
      apply IH in Hin. lia.
    + intros Hin. apply IH in Hin. lia.
    + intros Hin. apply IH in Hin. lia.
Qed.

Lemma runs_from_NoDup s : ∀ pos start, NoDup (runs_from pos start s).
Proof.
  induction s as [| c s' IH]; intros pos start; simpl.
  - destruct start; [apply NoDup_singleton | apply NoDup_nil_2].
  - destruct (isspace c); [destruct start |]; [| apply IH | apply IH].
    apply NoDup_cons_2; [| apply IH].
    intros Hin. apply runs_from_ge in Hin. lia.
Qed.

Lemma split_whitespace_word c s :
  isspace c = false → split_whitespace (c :: s) ≠ [].
Proof.
  intros Hc. simpl. rewrite Hc.
  destruct s as [| d s']; [done |].
  destruct (isspace d); [done |].
  by destruct (split_whitespace (d :: s')).
Qed.

Lemma runs_from_length s : ∀ pos start,
  length (runs_from pos start s) =
  match start, s with
  | None, _ => length (split_whitespace s)
  | Some _, c :: _ =>
      if isspace c then S (length (split_whitespace s)) else length (split_whitespace s)
  | Some _, [] => 1
  end.
Proof.
  induction s as [| c s' IH]; intros pos start.
  - by destruct start.
  - cbn [runs_from split_whitespace]. destruct (isspace c) eqn:Hc.
    + destruct start; simpl; by rewrite (IH (S pos) None).
    + rewrite (IH (S pos) (Some (default pos start))).
      assert (length (split_whitespace (c :: s')) =
              match s' with
              | d :: _ => if isspace d then S (length (split_whitespace s'))
                          else length (split_whitespace s')
              | [] => 1
              end) as Hword.
      { cbn [split_whitespace]. rewrite Hc.
        destruct s' as [| d s'']; [done |].
        destruct (isspace d) eqn:Hd; [done |].
        pose proof (split_whitespace_word d s'' Hd) as Hne.
        by destruct (split_whitespace (d :: s'')). }
      cbn [split_whitespace] in Hword. rewrite Hc in Hword.
      destruct start; rewrite Hword; by destruct s'.
Qed.

Lemma count_words_runs text : count_words text = length (runs text).
Proof. unfold count_words, runs. by rewrite runs_from_length. Qed.

Lemma runs_spec text i j : (i, j) ∈ runs text ↔ maximal_run text i j.
Proof.
  unfold runs. rewrite (runs_from_spec text text 0 None).
  - split; [by intros [? _] | intros ?; split; [done | lia]].
  - done.
  - split; [lia | done].
Qed.

Lemma count_words_whitespace text : Forall (λ c, isspace c) text → count_words text = 0.
Proof.
  unfold count_words. induction 1 as [| c s Hc _ IH]; [done |].
  simpl. destruct (isspace c); [done | by destruct Hc].
Qed.

(** C7: [count_words] is a function on strings whose result is the
    number of maximal runs of non-whitespace characters of its
    argument: the maximal runs are listed without repetition by a list
    of that length.  The empty string and every string of whitespace
    give 0, and ["  a   b "] gives 2. *)
Theorem count_words_maximal_runs :
  (∀ text, ∃ l : list (nat * nat),
      NoDup l ∧ (∀ i j, (i, j) ∈ l ↔ maximal_run text i j)
      ∧ count_words text = length l)
  ∧ count_words [] = 0
  ∧ (∀ text, Forall (λ c, isspace c) text → count_words text = 0)
  ∧ count_words (lit "  a   b ") = 2.
Proof.
  split; [| split; [done | split; [apply count_words_whitespace | done]]].
  intros text. exists (runs text).
  split; [apply runs_from_NoDup |].
  split; [apply runs_spec | apply count_words_runs].
Qed.

(** ** Searching and cutting strings *)

Lemma startswith_spec sep : ∀ s, startswith sep s = true ↔ ∃ rest, s = sep ++ rest.
Proof.
  induction sep as [| a sep' IH]; intros s; simpl.
  - split; [intros _; by exists s | done].
  - destruct s as [| b s']; [split; [done | by intros [? ?]] |].
    rewrite andb_true_iff, N.eqb_eq, IH. split.
    + intros [-> [rest ->]]. by exists rest.
    + intros [rest [= -> ->]]. split; [done | by exists rest].
Qed.

Lemma startswith_occurs sep s : startswith sep s = true ↔ occurs_at sep s 0.
Proof. apply startswith_spec. Qed.

Lemma startswith_app sep rest : startswith sep (sep ++ rest) = true.
Proof. apply startswith_spec. by exists rest. Qed.

Lemma find_unfold sep s :
  find sep s =
  if startswith sep s then Some 0
  else match s with
       | [] => None
       | _ :: s' => S <$> find sep s'
       end.
Proof. by destruct s. Qed.

Lemma occurs_at_nil sep i : occurs_at sep [] i → sep = [].
Proof.
  intros [rest Hrest]. rewrite drop_nil in Hrest.
  symmetry in Hrest. by apply app_eq_nil in Hrest as [-> _].
Qed.

Lemma find_Some sep : ∀ s i, find sep s = Some i → first_occurrence sep s i.
Proof.
  intros s. induction s as [| c s' IH]; intros i; rewrite find_unfold;
    destruct (startswith sep _) eqn:Hstart.
  - intros [= <-]. split; [by apply startswith_occurs | lia].
  - done.
  - intros [= <-]. split; [by apply startswith_occurs | lia].
  - destruct (find sep s') as [k |] eqn:Hfind; [| done].
    intros [= <-]. destruct (IH k eq_refl) as [Hocc Hfirst].
    split; [done |].
    intros [| j] Hj Hat.
    + apply startswith_occurs in Hat. congruence.
    + apply (Hfirst j); [lia | done].
Qed.

Lemma find_None sep : ∀ s, find sep s = None → absent sep s.
Proof.
  intros s. induction s as [| c s' IH]; rewrite find_unfold;
    destruct (startswith sep _) eqn:Hstart; try done.
  - intros _ i Hat. apply occurs_at_nil in Hat as ->. done.
  - destruct (find sep s') eqn:Hfind; [done |].
    intros _ [| j] Hat.
    + apply startswith_occurs in Hat. congruence.
    + by apply (IH eq_refl j).
Qed.

Lemma first_occurrence_find sep s i : first_occurrence sep s i → find sep s = Some i.
Proof.
  intros [Hocc Hfirst]. destruct (find sep s) as [k |] eqn:Hfind.
  - apply find_Some in Hfind as [Hk Hkfirst].
    destruct (Nat.lt_trichotomy i k) as [Hlt | [-> | Hgt]]; [| done |].
    + by destruct (Hkfirst i Hlt).
    + by destruct (Hfirst k Hgt).
  - apply find_None in Hfind. by destruct (Hfind i).
Qed.

Lemma absent_find sep s : absent sep s → find sep s = None.
Proof.
  intros Habs. destruct (find sep s) as [k |] eqn:Hfind; [| done].
  apply find_Some in Hfind as [Hk _]. by destruct (Habs k).
Qed.

(** The first piece of a cut is what stands before the first
    occurrence of the separator. *)
Lemma split_first sep s :
  sep ≠ [] →
  ∃ pieces,
    split sep s = Returns (match find sep s with
                           | Some i => take i s
                           | None => s
                           end :: pieces).
Proof.
  intros Hsep. unfold split. destruct sep as [| a sep']; [done |].
  destruct s as [| c s'].
  - by exists [].
  - cbn [length split_rounds]. destruct (find (a :: sep') (c :: s')); by eexists.
Qed.

Lemma occurs_at_length sep s i : occurs_at sep s i → sep ≠ [] → i + length sep ≤ length s.
Proof.
  intros [rest Hrest] Hsep. apply (f_equal length) in Hrest.
  rewrite length_drop, length_app in Hrest.
  destruct sep; [done |]. simpl in *. lia.
Qed.

(** A substring holds no occurrence that the whole string lacks. *)
Lemma absent_infix sep a m b : absent sep (a ++ m ++ b) → absent sep m.
Proof.
  intros Habs i [rest Hrest].
  destruct (decide (i ≤ length m)) as [Hle | Hgt].
  - apply (Habs (length a + i)). exists (rest ++ b).
    rewrite drop_app_add', drop_app_le by done.
    by rewrite Hrest, <- app_assoc.
  - rewrite drop_ge in Hrest by lia.
    symmetry in Hrest. apply app_eq_nil in Hrest as [-> _].
    apply (Habs 0). by exists (a ++ m ++ b).
Qed.

Lemma absent_before_first sep s i :
  sep ≠ [] → first_occurrence sep s i → absent sep (take i s).
Proof.
  intros Hsep [Hocc Hfirst] j Hat.
  pose proof (occurs_at_length _ _ _ Hat Hsep) as Hlen.
  rewrite length_take in Hlen.
  destruct Hat as [rest Hrest].
  apply (Hfirst j).
  - destruct sep; [done |]. simpl in Hlen. lia.
  - exists (rest ++ drop i s).
    rewrite <- (take_drop i s) at 1.
    rewrite drop_app_le by (rewrite length_take; lia).
    by rewrite Hrest, <- app_assoc.
Qed.

(** [length s] rounds are enough: no piece of the cut holds the
    separator. *)
Lemma split_rounds_enough sep : sep ≠ [] →
  ∀ rounds s, length s ≤ rounds → Forall (absent sep) (split_rounds rounds sep s).
Proof.
  intros Hsep rounds. induction rounds as [| rounds' IH]; intros s Hlen.
  - destruct s; [| simpl in Hlen; lia].
    simpl. destruct (find sep []) eqn:Hfind.
    + apply find_Some in Hfind as [Hat _]. by apply occurs_at_nil in Hat.
    + repeat constructor. by apply find_None.
  - simpl. destruct (find sep s) as [i |] eqn:Hfind.
    + apply find_Some in Hfind. constructor.
      * by apply absent_before_first.
      * apply IH. destruct Hfind as [Hat _].
        pose proof (occurs_at_length _ _ _ Hat Hsep).
        rewrite length_drop. destruct sep; [done |]. simpl in *. lia.
    + repeat constructor. by apply find_None.
Qed.

(** ** Trimming *)

Lemma lstrip_spaces ws x : Forall (λ c, isspace c) ws → lstrip (ws ++ x) = lstrip x.
Proof.
  induction 1 as [| c ws Hc _ IH]; [done |].
  simpl. destruct (isspace c); [done | by destruct Hc].
Qed.

Lemma lstrip_word x : (∀ c, head x = Some c → ¬ isspace c) → lstrip x = x.
Proof.
  destruct x as [| c x']; [done |]. intros Hhead. simpl.
  destruct (isspace c) eqn:Hc; [| done].
  destruct (Hhead c eq_refl). by rewrite Hc.
Qed.

Lemma lstrip_all ws : Forall (λ c, isspace c) ws → lstrip ws = [].
Proof. intros Hws. by rewrite <- (app_nil_r ws), lstrip_spaces. Qed.

Lemma rstrip_spaces x ws : Forall (λ c, isspace c) ws → rstrip (x ++ ws) = rstrip x.
Proof.
  intros Hws. unfold rstrip. rewrite reverse_app, lstrip_spaces; [done |].
  by apply Forall_reverse.
Qed.

Lemma rstrip_word x : (∀ c, last x = Some c → ¬ isspace c) → rstrip x = x.
Proof.
  intros Hlast. unfold rstrip. rewrite lstrip_word; [apply reverse_involutive |].
  intros c Hc. apply Hlast. by rewrite <- head_reverse.
Qed.

(** Trimming leaves the core of a string between two blocks of
    whitespace. *)
Lemma strip_core ws1 core ws2 :
  Forall (λ c, isspace c) ws1 → Forall (λ c, isspace c) ws2 →
  (∀ c, head core = Some c → ¬ isspace c) →
  (∀ c, last core = Some c → ¬ isspace c) →
  strip (ws1 ++ core ++ ws2) = core.
Proof.
  intros Hws1 Hws2 Hhead Hlast. unfold strip. rewrite lstrip_spaces by done.
  destruct core as [| c core'].
  - simpl. by rewrite lstrip_all.
  - rewrite lstrip_word.
    + by rewrite rstrip_spaces, rstrip_word.
    + intros d [= <-]. by apply Hhead.
Qed.

Lemma lstrip_suffix s : ∃ a, s = a ++ lstrip s.
Proof.
  induction s as [| c s' [a IH]]; [by exists [] |].
  simpl. destruct (isspace c).
  - exists (c :: a). simpl. by f_equal.
  - by exists [].
Qed.

Lemma strip_infix s : ∃ a b, s = a ++ strip s ++ b.
Proof.
  destruct (lstrip_suffix s) as [a Ha].
  destruct (lstrip_suffix (reverse (lstrip s))) as [b Hb].
  exists a, (reverse b). unfold strip, rstrip.
  rewrite <- reverse_app, <- Hb, reverse_involutive. done.
Qed.

(** ** Counting occurrences *)

Lemma absent_tail sep c s : absent sep (c :: s) → absent sep s.
Proof. intros Habs i Hat. by apply (Habs (S i)). Qed.

Lemma startswith_barrier sep : ∀ a x r,
  x ∉ sep → startswith sep (a ++ x :: r) = true → startswith sep a = true.
Proof.
  induction sep as [| e sep' IH]; intros a x r Hx; [done |].
  apply not_elem_of_cons in Hx as [Hne Hx].
  destruct a as [| b a']; simpl.
  - rewrite andb_true_iff, N.eqb_eq. intros [-> _]. done.
  - rewrite !andb_true_iff. intros [? ?]. split; [done | by eapply IH].
Qed.

(** An occurrence cannot reach over a character that the separator
    does not have. *)
Lemma occurrences_barrier sep q x r :
  x ∉ sep → absent sep q →
  occurrences sep (q ++ x :: r) = occurrences sep (x :: r).
Proof.
  intros Hx. induction q as [| c q' IH]; intros Habs; [done |].
  cbn [app occurrences].
  destruct (startswith sep (c :: q' ++ x :: r)) eqn:Hstart.
  - apply (startswith_barrier sep (c :: q')) in Hstart; [| done].
    apply startswith_occurs in Hstart. by destruct (Habs 0).
  - rewrite IH; [done | by eapply absent_tail].
Qed.

Lemma occurrences_without e sep s : e ∉ s → occurrences (e :: sep) s = 0.
Proof.
  induction s as [| c s' IH]; [done |].
  intros Hs. apply not_elem_of_cons in Hs as [Hne Hs].
  cbn [occurrences startswith].
  destruct (N.eqb_spec e c) as [-> | _]; [done |].
  simpl. by apply IH.
Qed.

Lemma lit_cons a s : lit (String a s) = N_of_ascii a :: lit s.
Proof. done. Qed.

Lemma decimal_digits n : Forall digit (decimal n).
Proof.
  unfold decimal. induction (Nat.to_uint n) as [| d IH | d IH | d IH | d IH | d IH
                                                 | d IH | d IH | d IH | d IH | d IH];
    [constructor | ..];
    cbn [NilEmpty.string_of_uint]; rewrite lit_cons; (constructor; [done | exact IH]).
Qed.

Lemma marker_codes : marker = [121; 97; 112; 32; 115; 99; 111; 114; 101; 58]%N.
Proof. reflexivity. Qed.

Lemma occurrences_score q ds :
  absent marker q → Forall digit ds →
  occurrences marker (q ++ [LF; LF] ++ lit "yap score: " ++ ds) = 1.
Proof.
  rewrite marker_codes. intros Habs Hds.
  assert (occurrences [121; 97; 112; 32; 115; 99; 111; 114; 101; 58]%N ds = 0) as Hzero.
  { apply occurrences_without. intros Hin.
    eapply Forall_forall in Hds; [| exact Hin]. unfold digit in Hds. lia. }
  cbn [app]. rewrite occurrences_barrier; [| | done].
  2:{ intros Hin. apply list_elem_of_In in Hin. cbv in Hin. intuition discriminate. }
  change (lit "yap score: " ++ ds)
    with (121 :: 97 :: 112 :: 32 :: 115 :: 99 :: 111 :: 114 :: 101 :: 58 :: 32 :: ds)%N.
  cbn [app occurrences startswith N.eqb Pos.eqb andb LF].
  by rewrite Hzero.
Qed.

(** ** The new description *)

Section Description.

Variable format_value : json → str.

(** What lines 226-234 compute when the description and the title are
    strings, read from the activity or taken by default. *)
Lemma new_description_strings activity d t :
  dict_get activity (lit "description") (JStr []) = Returns (JStr d) →
  dict_get activity (lit "name") (JStr []) = Returns (JStr t) →
  new_description format_value activity =
  Returns (match find marker d with
           | Some i => strip (take i d)
           | None => d
           end ++ score_block (count_words t), count_words t).
Proof.
  intros Hd Ht. unfold new_description. rewrite Hd, Ht. cbn.
  unfold contains. destruct (find marker d) as [i |] eqn:Hfind; [| done].
  destruct (split_first marker d) as [pieces Hsplit]; [done |].
  rewrite Hsplit, Hfind. done.
Qed.

Lemma kept_absent d :
  absent marker match find marker d with
                | Some i => strip (take i d)
                | None => d
                end.
Proof.
  destruct (find marker d) as [i |] eqn:Hfind; [| by apply find_None].
  apply find_Some in Hfind.
  destruct (strip_infix (take i d)) as (a & b & Hab).
  apply (absent_infix marker a _ b). rewrite <- Hab.
  by apply absent_before_first.
Qed.

(** C5, amended: for an activity whose description and title are
    strings (read from the activity or taken by default), lines 226-234
    give a new description that ends with the score block for the word
    count of the title.  Before the block stands the old description
    as it is when the marker does not occur in it; when the marker
    occurs, there stands what precedes its first occurrence, without
    the whitespace at both its ends.  The scenario of the specification
    comes out as stated. *)
Theorem new_description_update :
  (∀ activity d t,
      dict_get activity (lit "description") (JStr []) = Returns (JStr d) →
      dict_get activity (lit "name") (JStr []) = Returns (JStr t) →
      (∃ kept, new_description format_value activity =
               Returns (kept ++ score_block (count_words t), count_words t))
      ∧ (absent marker d →
         new_description format_value activity =
         Returns (d ++ score_block (count_words t), count_words t))
      ∧ (∀ i ws1 core ws2,
            first_occurrence marker d i →
            take i d = ws1 ++ core ++ ws2 →
            Forall (λ c, isspace c) ws1 → Forall (λ c, isspace c) ws2 →
            (∀ c, head core = Some c → ¬ isspace c) →
            (∀ c, last core = Some c → ¬ isspace c) →
            new_description format_value activity =
            Returns (core ++ score_block (count_words t), count_words t)))
  ∧ new_description format_value morning_run =
    Returns (lit "Nice day" ++ [LF; LF] ++ lit "yap score: 4", 4).
Proof.
  split; [| vm_compute; reflexivity].
  intros activity d t Hd Ht.
  rewrite (new_description_strings activity d t Hd Ht).
  split; [by eexists |]. split.
  - intros Habs. by rewrite absent_find.
  - intros i ws1 core ws2 Hfirst Htake Hws1 Hws2 Hhead Hlast.
    rewrite (first_occurrence_find _ _ _ Hfirst), Htake.
    by rewrite strip_core.
Qed.

(** C6: applying the update twice with the same title gives a
    description in which the marker occurs exactly once, followed by
    the word count of the title, which ends the description. *)
Theorem yap_score_once m d t :
  dict_get (JObj m) (lit "description") (JStr []) = Returns (JStr d) →
  dict_get (JObj m) (lit "name") (JStr []) = Returns (JStr t) →
  ∃ once twice,
    new_description format_value (JObj m) = Returns (once, count_words t)
    ∧ new_description format_value (JObj (<[lit "description" := JStr once]> m))
      = Returns (twice, count_words t)
    ∧ occurrences marker twice = 1
    ∧ ∃ kept, twice = kept ++ marker ++ lit " " ++ decimal (count_words t).
Proof.
  intros Hd Ht. eexists. eexists.
  split; [by apply new_description_strings |].
  split.
  - apply new_description_strings.
    + unfold dict_get. by rewrite lookup_insert_eq.
    + unfold dict_get in *. rewrite lookup_insert_ne; [exact Ht |].
      intros Heq. vm_compute in Heq. discriminate.
  - split.
    + apply occurrences_score; [apply kept_absent | apply decimal_digits].
    + unfold score_block. rewrite (app_assoc _ [LF; LF]).
      eexists. reflexivity.
Qed.

Lemma description_ne_name : lit "description" ≠ lit "name".
Proof. intros Heq. vm_compute in Heq. discriminate. Qed.

(** The word count that comes out is the one of the title. *)
Lemma new_description_word_count activity text n :
  new_description format_value activity = Returns (text, n) →
  ∃ title, dict_get activity (lit "name") (JStr []) = Returns title
           ∧ count_words_of title = Returns n.
Proof.
  unfold new_description.
  destruct (dict_get activity (lit "description") _) as [cd | |]; [| done ..].
  destruct (dict_get activity (lit "name") _) as [title | |]; [| done ..].
  cbn. destruct (count_words_of title) as [wc | |] eqn:Hcount; [| done ..].
  cbn. destruct (py_in marker cd) as [[|] | |]; [| | done ..]; cbn.
  - destruct (split_method cd marker) as [pieces | |]; [| done ..].
    cbn. destruct (first pieces); [| done ..].
    cbn. intros [= <- <-]. eauto.
  - intros [= <- <-]. eauto.
Qed.

(** C10: an activity without the key ["description"] is handled as
    one whose description is the empty string, and one without the key
    ["name"] as one whose title is the empty string, which scores 0.
    A key that is there with the value [null] is not replaced by the
    default: the title [None] makes line 207 raise [AttributeError],
    and the description [None] makes line 231 raise [TypeError]. *)
Theorem missing_keys_default (m : gmap str json) :
  (m !! lit "description" = None →
   new_description format_value (JObj m)
   = new_description format_value (JObj (<[lit "description" := JStr []]> m)))
  ∧ (m !! lit "name" = None →
     new_description format_value (JObj m)
     = new_description format_value (JObj (<[lit "name" := JStr []]> m))
     ∧ ∀ text n, new_description format_value (JObj m) = Returns (text, n) → n = 0)
  ∧ new_description format_value (JObj ∅) = Returns (score_block 0, 0)
  ∧ (m !! lit "name" = Some JNull →
     new_description format_value (JObj m) = Raises AttributeError)
  ∧ (m !! lit "description" = Some JNull →
     ∀ t, dict_get (JObj m) (lit "name") (JStr []) = Returns (JStr t) →
          new_description format_value (JObj m) = Raises TypeError).
Proof.
  split; [| split; [| split; [| split]]].
  - intros Hnone. unfold new_description, dict_get.
    rewrite Hnone, lookup_insert_eq, lookup_insert_ne by apply description_ne_name.
    done.
  - intros Hnone. split.
    + unfold new_description, dict_get.
      rewrite Hnone, lookup_insert_eq, lookup_insert_ne
        by (intros Heq; symmetry in Heq; by apply description_ne_name).
      done.
    + intros text n Hrun.
      apply new_description_word_count in Hrun as (title & Htitle & Hcount).
      unfold dict_get in Htitle. rewrite Hnone in Htitle.
      injection Htitle as <-. by injection Hcount as <-.
  - vm_compute. reflexivity.
  - intros Hnull. unfold new_description, dict_get. by rewrite Hnull.
  - intros Hnull t Ht. unfold new_description. rewrite Ht.
    unfold dict_get. by rewrite Hnull.
Qed.

End Description.

(** C5 as worded, with trailing whitespace alone trimmed, fails on a
    description that begins with a space. *)
Lemma new_description_not_as_described :
  new_description (λ _, []) indented_run
  ≠ Returns (described_update (lit " Nice day" ++ [LF; LF] ++ lit "yap score: 2")
                              (lit "Morning Run Felt Great"),
             count_words (lit "Morning Run Felt Great")).
Proof. vm_compute. discriminate. Qed.

Lemma new_description_update_witness :
  new_description (λ _, []) indented_run =
  Returns (lit "Nice day" ++ score_block 4, 4).
Proof.
  refine (proj2 (proj2 (proj1 (new_description_update (λ _, [])) indented_run
                   (lit " Nice day" ++ [LF; LF] ++ lit "yap score: 2")
                   (lit "Morning Run Felt Great") eq_refl eq_refl))
            11 [32%N] (lit "Nice day") [LF; LF] _ eq_refl _ _ _ _).
  - apply find_Some. reflexivity.
  - repeat constructor.
  - repeat constructor.
  - intros c [= <-]. vm_compute. tauto.
  - intros c [= <-]. vm_compute. tauto.
Defined.

Lemma yap_score_once_witness :
  ∃ once twice,
    new_description (λ _, []) morning_run = Returns (once, 4)
    ∧ new_description (λ _, []) (JObj (<[lit "description" := JStr once]> morning_run_fields))
      = Returns (twice, 4)
    ∧ occurrences marker twice = 1
    ∧ ∃ kept, twice = kept ++ marker ++ lit " " ++ decimal 4.
Proof.
  exact (yap_score_once (λ _, []) morning_run_fields
           (lit "Nice day" ++ [LF; LF] ++ lit "yap score: 2")
           (lit "Morning Run Felt Great") eq_refl eq_refl).
Defined.

(** ** The token cache *)

Lemma before_earlier t x : before t x = true ↔ earlier t x.
Proof.
  destruct x as [q | | |]; simpl; [| done ..].
  rewrite Qlt_alt. by destruct (t ?= q)%Q.
Qed.

(** Running a piece of the script: the monad's operations are
    unfolded and the outcome of each step is looked at in turn. *)
Ltac unfold_script :=
  unfold request, raise_for_status, response_json, json_load, save_tokens in *;
  unfold try_except, open_read, open_write_dump, os_remove, pure, raise, emit in *;
  unfold mbind, mret, M_bind, M_ret in *.

Ltac step :=
  match goal with
  | |- context [match ?x with _ => _ end] =>
      lazymatch x with
      | context [match _ with _ => _ end] => fail
      | _ => destruct x eqn:?
      end
  end.

Ltac run := unfold_script; cbn; repeat (step; cbn; simplify_eq).

Lemma truthy_null : truthy JNull = false.
Proof. done. Qed.

Lemma truthy_getitem v key x : getitem v key = Returns x → truthy v = true.
Proof.
  destruct v as [| | | | | m]; try done. simpl.
  destruct (m !! key) eqn:Hkey; [| done]. intros _.
  unfold truthy. rewrite negb_true_iff, bool_decide_eq_false.
  intros Hsize. apply map_size_empty_iff in Hsize. by rewrite Hsize in Hkey.
Qed.

Lemma load_tokens_frame E file : ∃ o, load_tokens E file = (o, file, [OpenRead]).
Proof. unfold load_tokens. destruct file as [| | [| | v]]; run; by eexists. Qed.

(** What [load_tokens] returns is [None] or a document that counts as
    true and is the one in the file. *)
Lemma load_tokens_result E file v file' evs :
  load_tokens E file = (Returns v, file', evs) →
  v = JNull ∨ (truthy v = true ∧ file = Stored (Doc v)).
Proof.
  unfold load_tokens. destruct file as [| | [| | w]]; run; intros; simplify_eq; eauto.
  right. split; [by eapply truthy_getitem | done].
Qed.


Lemma load_tokens_hit E m x e :
  m !! lit "expires_at" = Some x → as_number x = Returns e →
  before (time_at_load E) e = true →
  load_tokens E (Stored (Doc (JObj m)))
  = (Returns (JObj m), Stored (Doc (JObj m)), [OpenRead]).
Proof.
  intros Hkey Hnum Hbefore. unfold load_tokens. unfold_script. cbn.
  by rewrite Hkey, Hnum, Hbefore.
Qed.

Lemma load_tokens_expired E m x e :
  m !! lit "expires_at" = Some x → as_number x = Returns e →
  before (time_at_load E) e = false →
  load_tokens E (Stored (Doc (JObj m)))
  = (Returns JNull, Stored (Doc (JObj m)), [OpenRead]).
Proof.
  intros Hkey Hnum Hbefore. unfold load_tokens. unfold_script. cbn.
  by rewrite Hkey, Hnum, Hbefore.
Qed.

Lemma load_tokens_missing E : load_tokens E Missing = (Returns JNull, Missing, [OpenRead]).
Proof. done. Qed.

Lemma get_access_token_miss float_add E cid secret file :
  load_tokens E file = (Returns JNull, file, [OpenRead]) →
  get_access_token float_add E cid secret file
  = let '(o, file', evs) := authorization_flow float_add E cid secret file in
    (o, file', OpenRead :: evs).
Proof.
  intros Hload. unfold get_access_token. unfold mbind at 1. unfold M_bind at 1.
  rewrite Hload, truthy_null. by destruct (authorization_flow _ _ _ _ _) as [[? ?] ?].
Qed.

Lemma get_access_token_hit float_add E cid secret file v :
  load_tokens E file = (Returns v, file, [OpenRead]) → truthy v = true →
  get_access_token float_add E cid secret file
  = (getitem v (lit "access_token"), file, [OpenRead; Console UsingExistingToken]).
Proof.
  intros Hload Htrue. unfold get_access_token. unfold mbind at 1. unfold M_bind at 1.
  rewrite Hload, Htrue. unfold_script. cbn. by destruct (getitem v _).
Qed.

(** The flow neither reads the token file nor depends on it: started
    without a file or over a stored one, it ends the same way after
    the same events, and leaves the same file if it wrote one. *)
Lemma authorization_flow_oblivious float_add E cid secret c :
  let absent := authorization_flow float_add E cid secret Missing in
  let stored := authorization_flow float_add E cid secret (Stored c) in
  stored.1.1 = absent.1.1 ∧ stored.2 = absent.2
  ∧ (stored.1.2 = absent.1.2
     ∨ (absent.1.2 = Missing ∧ stored.1.2 = Stored c ∧ OpenWrite ∉ absent.2))
  ∧ ∃ evs, absent.2 = Console StartingOAuthFlow :: Listen :: evs.
Proof.
  unfold authorization_flow. run; repeat split; eauto.
  all: right; repeat split; try done.
  all: rewrite ?not_elem_of_cons; repeat split; try done; apply not_elem_of_nil.
Qed.

(** C1: when the token file holds a TokenRecord and the time is
    strictly before its [expires_at], [get_access_token] returns the
    access token of the record at once: the only events are the read
    of the file and a line on the console, no call to the network.
    When the time is not strictly before [expires_at], the call comes
    to what it comes to without the file: the same outcome after the
    same events, which begin with the interactive flow, and the same
    file afterwards if one was written. *)
Theorem cached_token_reused float_add E cid secret record tok e :
  token_record record tok e →
  (earlier (time_at_load E) e →
   get_access_token float_add E cid secret (Stored (Doc record))
   = (Returns tok, Stored (Doc record), [OpenRead; Console UsingExistingToken]))
  ∧ (¬ earlier (time_at_load E) e →
     let absent := get_access_token float_add E cid secret Missing in
     let stored := get_access_token float_add E cid secret (Stored (Doc record)) in
     stored.1.1 = absent.1.1 ∧ stored.2 = absent.2
     ∧ (stored.1.2 = absent.1.2
        ∨ (absent.1.2 = Missing ∧ stored.1.2 = Stored (Doc record)
           ∧ OpenWrite ∉ absent.2))
     ∧ ∃ evs, absent.2 = OpenRead :: Console StartingOAuthFlow :: Listen :: evs).
Proof.
  intros (m & -> & Htok & Hexp). split.
  - intros Hearly. apply before_earlier in Hearly.
    rewrite (get_access_token_hit _ _ _ _ _ (JObj m)).
    + simpl. by rewrite Htok.
    + by eapply load_tokens_hit.
    + eapply truthy_getitem. simpl. by rewrite Hexp.
  - intros Hlate.
    assert (before (time_at_load E) e = false) as Hbefore.
    { destruct (before _ e) eqn:Hb; [| done]. by apply before_earlier in Hb. }
    rewrite !get_access_token_miss;
      [| by eapply load_tokens_expired | apply load_tokens_missing].
    pose proof (authorization_flow_oblivious float_add E cid secret (Doc (JObj m)))
      as (Hout & Hevs & Hfile & evs & Hstart).
    destruct (authorization_flow float_add E cid secret Missing) as [[o1 f1] evs1].
    destruct (authorization_flow float_add E cid secret (Stored _)) as [[o2 f2] evs2].
    simpl in *. subst.
    split; [done |]. split; [done |]. split; [| by eexists].
    destruct Hfile as [-> | (-> & -> & Hno)]; [by left | right].
    split; [done |]. split; [done |].
    rewrite not_elem_of_cons. split; [done | exact Hno].
Qed.

Lemma cached_token_reused_witness :
  get_access_token exact_add (answering 200 None) CLIENT_ID CLIENT_SECRET
    (Stored (Doc saved_tokens))
  = (Returns (JStr (lit "abc")), Stored (Doc saved_tokens),
     [OpenRead; Console UsingExistingToken]).
Proof.
  refine (proj1 (cached_token_reused exact_add (answering 200 None) CLIENT_ID CLIENT_SECRET
                   saved_tokens (JStr (lit "abc")) (Finite (1000 + 21600)) _) _).
  - eexists. split; [reflexivity |]. split; vm_compute; reflexivity.
  - vm_compute. reflexivity.
Defined.



(** ** The exchange *)

Lemma not_error_status r :
  ((400 <=? status_code r) && (status_code r <? 600))%Z = false ↔
  ¬ (400 ≤ status_code r < 600)%Z.
Proof. rewrite andb_false_iff, Z.leb_gt, Z.ltb_ge. lia. Qed.

Lemma error_status r :
  ((400 <=? status_code r) && (status_code r <? 600))%Z = true ↔
  (400 ≤ status_code r < 600)%Z.
Proof. rewrite andb_true_iff, Z.leb_le, Z.ltb_lt. lia. Qed.

(** C3 as worded fails on the status 304, which is not a 2xx status
    and for which [raise_for_status] raises nothing: the call returns
    the token and the record is written. *)
Lemma exchange_not_modified :
  ¬ (200 ≤ 304 < 300)%Z
  ∧ get_access_token exact_add (answering 304 (Some fresh_tokens)) CLIENT_ID CLIENT_SECRET
      Missing
    = (Returns (JStr (lit "abc")), Stored (Doc saved_tokens),
       [OpenRead; Console StartingOAuthFlow; Listen; Browser CLIENT_ID; CloseListener;
        Post CLIENT_ID CLIENT_SECRET (lit "code"); OpenWrite]).
Proof. split; [lia | vm_compute; reflexivity]. Qed.

(** C3, amended: when [get_access_token] finds no token to reuse and
    the POST to the token endpoint is answered with a status from 400
    to 599, the call raises [HTTPError]; there is one POST and no other
    request, nothing is written and the token file is as before. *)
Theorem exchange_failure float_add E cid secret file code r :
  (load_tokens E file).1.1 = Returns JNull →
  port_free E = true →
  auth_code E = Some code →
  token_endpoint E cid secret code = Responds r →
  (400 ≤ status_code r < 600)%Z →
  get_access_token float_add E cid secret file
  = (Raises (RequestException HTTPError), file,
     [OpenRead; Console StartingOAuthFlow; Listen; Browser cid; CloseListener;
      Post cid secret code]).
Proof.
  intros Hload Hport Hcode Hreply Hstatus.
  destruct (load_tokens_frame E file) as [o Ho].
  rewrite Ho in Hload. simpl in Hload. subst o.
  rewrite get_access_token_miss by done.
  apply error_status in Hstatus.
  unfold authorization_flow. unfold_script. cbn.
  rewrite Hport, Hcode. cbn. rewrite Hreply. cbn. by rewrite Hstatus.
Qed.

Lemma exchange_failure_witness :
  get_access_token exact_add (answering 403 None) CLIENT_ID CLIENT_SECRET Missing
  = (Raises (RequestException HTTPError), Missing,
     [OpenRead; Console StartingOAuthFlow; Listen; Browser CLIENT_ID; CloseListener;
      Post CLIENT_ID CLIENT_SECRET (lit "code")]).
Proof.
  refine (exchange_failure exact_add (answering 403 None) CLIENT_ID CLIENT_SECRET Missing
            (lit "code") {| status_code := 403; json_body := None |}
            eq_refl eq_refl eq_refl eq_refl _).
  simpl. lia.
Defined.

(** ** The answer 401 *)

Lemma get_recent_activity_401 E tok id r file :
  activities_endpoint E tok id = Responds r → status_code r = 401%Z →
  get_recent_activity E tok id file
  = match file with
    | Missing => (Raises FileNotFoundError, Missing, [Get tok id; Console TokenExpired; Remove])
    | Directory =>
        (Raises IsADirectoryError, Directory, [Get tok id; Console TokenExpired; Remove])
    | Stored _ => (Returns JNull, Missing, [Get tok id; Console TokenExpired; Remove])
    end.
Proof.
  intros Hreply Hstatus. unfold get_recent_activity. unfold_script. cbn.
  rewrite Hreply. cbn. rewrite Hstatus. cbn. by destruct file.
Qed.

(** C4 as worded fails when there is no token file: the call raises
    [FileNotFoundError]. *)
Lemma unauthorized_without_file :
  get_recent_activity (answering 401 None) (JStr (lit "abc")) ATHLETE_ID Missing
  = (Raises FileNotFoundError, Missing,
     [Get (JStr (lit "abc")) ATHLETE_ID; Console TokenExpired; Remove]).
Proof. vm_compute. reflexivity. Qed.

(** C4, amended: when the activities endpoint answers 401 and the
    token file exists, [get_recent_activity] removes the file and
    returns [None] without raising. *)
Theorem unauthorized_removes_token E tok id r c :
  activities_endpoint E tok id = Responds r →
  status_code r = 401%Z →
  get_recent_activity E tok id (Stored c)
  = (Returns JNull, Missing, [Get tok id; Console TokenExpired; Remove]).
Proof. intros Hreply Hstatus. by rewrite (get_recent_activity_401 E tok id r). Qed.

Lemma unauthorized_removes_token_witness :
  get_recent_activity (answering 401 None) (JStr (lit "abc")) ATHLETE_ID
    (Stored (Doc saved_tokens))
  = (Returns JNull, Missing,
     [Get (JStr (lit "abc")) ATHLETE_ID; Console TokenExpired; Remove]).
Proof.
  exact (unauthorized_removes_token (answering 401 None) (JStr (lit "abc")) ATHLETE_ID
           {| status_code := 401; json_body := None |} (Doc saved_tokens)
           eq_refl eq_refl).
Defined.

(** C8: when the activities endpoint answers 401 and there is no token
    file, the removal raises [FileNotFoundError], which the handler for
    [RequestException] lets through; the call returns [None] exactly
    when the token file exists. *)
Theorem unauthorized_needs_token_file E tok id r :
  activities_endpoint E tok id = Responds r →
  status_code r = 401%Z →
  get_recent_activity E tok id Missing
  = (Raises FileNotFoundError, Missing, [Get tok id; Console TokenExpired; Remove])
  ∧ ∀ file, (get_recent_activity E tok id file).1.1 = Returns JNull ↔ ∃ c, file = Stored c.
Proof.
  intros Hreply Hstatus. split; [by rewrite (get_recent_activity_401 E tok id r) |].
  intros file. rewrite (get_recent_activity_401 E tok id r) by done.
  destruct file; simpl; split; try done; try by intros [? ?].
  by eexists.
Qed.

Lemma unauthorized_needs_token_file_witness :
  get_recent_activity (answering 401 None) JNull ATHLETE_ID Missing
  = (Raises FileNotFoundError, Missing, [Get JNull ATHLETE_ID; Console TokenExpired; Remove])
  ∧ ∀ file, (get_recent_activity (answering 401 None) JNull ATHLETE_ID file).1.1
            = Returns JNull ↔ ∃ c, file = Stored c.
Proof.
  exact (unauthorized_needs_token_file (answering 401 None) JNull ATHLETE_ID
           {| status_code := 401; json_body := None |} eq_refl eq_refl).
Defined.

(** ** Writes to the token file *)

Lemma get_access_token_load_fails float_add E cid secret file o :
  load_tokens E file = (o, file, [OpenRead]) → (∀ v, o ≠ Returns v) →
  get_access_token float_add E cid secret file = (o, file, [OpenRead]).
Proof.
  intros Hload Ho. unfold get_access_token. unfold mbind at 1. unfold M_bind at 1.
  rewrite Hload. destruct o as [v | e |]; [by destruct (Ho v) | done | done].
Qed.

(** The flow opens the token file for writing only after an answer of
    the token endpoint that [raise_for_status] lets pass. *)
Lemma authorization_flow_write float_add E cid secret file :
  OpenWrite ∈ (authorization_flow float_add E cid secret file).2 →
  ∃ code r,
    auth_code E = Some code
    ∧ token_endpoint E cid secret code = Responds r
    ∧ ¬ (400 ≤ status_code r < 600)%Z
    ∧ (authorization_flow float_add E cid secret file).2
      = [Console StartingOAuthFlow; Listen; Browser cid; CloseListener;
         Post cid secret code; OpenWrite].
Proof.
  unfold authorization_flow. run.
  all: try (intros Hin; repeat (apply elem_of_cons in Hin as [Hin | Hin]; [done |]);
            by apply elem_of_nil in Hin).
  all: intros _; eexists _, _; split; [done |]; split; [done |];
       split; [by apply not_error_status | done].
Qed.

(** When [get_access_token] returns, the token file is there. *)
Lemma get_access_token_leaves_file float_add E cid secret file tok file' evs :
  get_access_token float_add E cid secret file = (Returns tok, file', evs) →
  ∃ c, file' = Stored c.
Proof.
  destruct (load_tokens_frame E file) as [o Hload].
  destruct o as [v | e |].
  - destruct (load_tokens_result _ _ _ _ _ Hload) as [-> | [Htrue ->]].
    + rewrite get_access_token_miss by done.
      unfold authorization_flow. run; intros; simplify_eq; by eexists.
    + rewrite (get_access_token_hit _ _ _ _ _ v) by done.
      intros [= _ <- _]. by eexists.
  - by rewrite (get_access_token_load_fails _ _ _ _ _ (Raises e)).
  - by rewrite (get_access_token_load_fails _ _ _ _ _ Diverges).
Qed.

(** C9: when [load_tokens] returns a record, [get_access_token] leaves
    the token file as it is and does not open it for writing.  The file
    is opened for writing only when [load_tokens] returned [None] and
    the token endpoint answered the POST with a status that
    [raise_for_status] lets pass; the write is the last event, after
    the POST. *)
Theorem cache_hit_writes_nothing float_add E cid secret file :
  (∀ tokens, (load_tokens E file).1.1 = Returns tokens → tokens ≠ JNull →
             (get_access_token float_add E cid secret file).1.2 = file
             ∧ OpenWrite ∉ (get_access_token float_add E cid secret file).2)
  ∧ (OpenWrite ∈ (get_access_token float_add E cid secret file).2 →
     (load_tokens E file).1.1 = Returns JNull
     ∧ ∃ code r,
         auth_code E = Some code
         ∧ token_endpoint E cid secret code = Responds r
         ∧ ¬ (400 ≤ status_code r < 600)%Z
         ∧ (get_access_token float_add E cid secret file).2
           = [OpenRead; Console StartingOAuthFlow; Listen; Browser cid; CloseListener;
              Post cid secret code; OpenWrite]).
Proof.
  destruct (load_tokens_frame E file) as [o Hload]. rewrite Hload. simpl. split.
  - intros tokens -> Hrecord.
    destruct (load_tokens_result _ _ _ _ _ Hload) as [-> | [Htrue ->]]; [done |].
    rewrite (get_access_token_hit _ _ _ _ _ tokens) by done. simpl.
    split; [done |]. intros Hin.
    repeat (apply elem_of_cons in Hin as [Hin | Hin]; [done |]).
    by apply elem_of_nil in Hin.
  - destruct o as [v | e |].
    + destruct (load_tokens_result _ _ _ _ _ Hload) as [-> | [Htrue ->]].
      * rewrite get_access_token_miss by done.
        pose proof (authorization_flow_write float_add E cid secret file) as Hflow.
        destruct (authorization_flow float_add E cid secret file) as [[o f] evs].
        simpl in *. intros Hin. apply elem_of_cons in Hin as [Hin | Hin]; [done |].
        destruct (Hflow Hin) as (code & r & Hcode & Hreply & Hstatus & ->).
        split; [done |]. by exists code, r.
      * rewrite (get_access_token_hit _ _ _ _ _ v) by done. simpl. intros Hin.
        repeat (apply elem_of_cons in Hin as [Hin | Hin]; [done |]).
        by apply elem_of_nil in Hin.
    + rewrite (get_access_token_load_fails _ _ _ _ _ (Raises e)) by done.
      simpl. intros Hin. apply elem_of_cons in Hin as [Hin | Hin]; [done |].
      by apply elem_of_nil in Hin.
    + rewrite (get_access_token_load_fails _ _ _ _ _ Diverges) by done.
      simpl. intros Hin. apply elem_of_cons in Hin as [Hin | Hin]; [done |].
      by apply elem_of_nil in Hin.
Qed.

Lemma cache_hit_writes_nothing_witness :
  (get_access_token exact_add (answering 200 (Some fresh_tokens)) CLIENT_ID CLIENT_SECRET
     (Stored (Doc saved_tokens))).1.2 = Stored (Doc saved_tokens)
  ∧ OpenWrite ∉ (get_access_token exact_add (answering 200 (Some fresh_tokens))
                   CLIENT_ID CLIENT_SECRET (Stored (Doc saved_tokens))).2.
Proof.
  refine (proj1 (cache_hit_writes_nothing exact_add (answering 200 (Some fresh_tokens))
                   CLIENT_ID CLIENT_SECRET (Stored (Doc saved_tokens)))
            saved_tokens _ _).
  - vm_compute. reflexivity.
  - discriminate.
Defined.

(** ** The script as a whole *)


(** ** More on words *)

Lemma split_whitespace_spaces ws s :
  Forall (λ c, isspace c) ws → split_whitespace (ws ++ s) = split_whitespace s.
Proof.
  induction 1 as [| c ws Hc _ IH]; [done |].
  simpl. destruct (isspace c); [done | by destruct Hc].
Qed.

Lemma split_whitespace_app_space a c s :
  isspace c →
  split_whitespace (a ++ c :: s) = split_whitespace a ++ split_whitespace s.
Proof.
  intros Hc. induction a as [| x a' IH].
  - simpl. destruct (isspace c); [done | by destruct Hc].
  - cbn [app split_whitespace]. destruct (isspace x) eqn:Hx; [done |].
    rewrite IH. destruct a' as [| d a''].
    + simpl. destruct (isspace c); [done | by destruct Hc].
    + cbn [app]. destruct (isspace d) eqn:Hd; [done |].
      pose proof (split_whitespace_word d a'' Hd) as Hne.
      by destruct (split_whitespace (d :: a'')).
Qed.

Lemma split_whitespace_app a ws b :
  Forall (λ c, isspace c) ws → ws ≠ [] →
  split_whitespace (a ++ ws ++ b) = split_whitespace a ++ split_whitespace b.
Proof.
  intros Hws Hne. destruct Hws as [| c ws' Hc Hws']; [done |].
  cbn [app]. rewrite split_whitespace_app_space by done.
  by rewrite split_whitespace_spaces.
Qed.

Lemma split_whitespace_trailing s ws :
  Forall (λ c, isspace c) ws → split_whitespace (s ++ ws) = split_whitespace s.
Proof.
  intros Hws. destruct Hws as [| c ws' Hc Hws']; [by rewrite app_nil_r |].
  rewrite split_whitespace_app_space by done.
  rewrite <- (app_nil_r ws'), split_whitespace_spaces by done.
  by rewrite app_nil_r.
Qed.

Lemma lstrip_spaces_before s : ∃ a, Forall (λ c, isspace c) a ∧ s = a ++ lstrip s.
Proof.
  induction s as [| c s' (a & Ha & IH)]; [by exists [] |].
  simpl. destruct (isspace c) eqn:Hc.
  - exists (c :: a). split; [constructor; [by rewrite Hc | done] |].
    simpl. by f_equal.
  - by exists [].
Qed.

Lemma lstrip_head s c : head (lstrip s) = Some c → ¬ isspace c.
Proof.
  induction s as [| x s' IH]; [done |].
  simpl. destruct (isspace x) eqn:Hx; [done |].
  intros [= <-]. rewrite Hx. by intros [].
Qed.

(** What trimming takes away is whitespace, and what it leaves neither
    begins nor ends with whitespace. *)
Lemma strip_spaces_around s :
  ∃ a b, Forall (λ c, isspace c) a ∧ Forall (λ c, isspace c) b
         ∧ s = a ++ strip s ++ b
         ∧ (∀ c, head (strip s) = Some c → ¬ isspace c)
         ∧ (∀ c, last (strip s) = Some c → ¬ isspace c).
Proof.
  destruct (lstrip_spaces_before s) as (a & Ha & Hs).
  destruct (lstrip_spaces_before (reverse (lstrip s))) as (b & Hb & Hr).
  assert (lstrip s = strip s ++ reverse b) as Hcore.
  { unfold strip, rstrip. by rewrite <- reverse_app, <- Hr, reverse_involutive. }
  exists a, (reverse b). split; [done |]. split; [by apply Forall_reverse |].
  split; [by rewrite <- Hcore |]. split.
  - intros c Hc. apply (lstrip_head s). rewrite Hcore.
    by destruct (strip s).
  - intros c Hc. unfold strip, rstrip in Hc. rewrite last_reverse in Hc.
    by eapply lstrip_head.
Qed.

(** X1: a block of whitespace between two texts separates their words:
    the words of the whole are those of the first text followed by
    those of the second, and the word counts add up. *)
Theorem count_words_additive a ws b :
  Forall (λ c, isspace c) ws → ws ≠ [] →
  split_whitespace (a ++ ws ++ b) = split_whitespace a ++ split_whitespace b
  ∧ count_words (a ++ ws ++ b) = count_words a + count_words b.
Proof.
  intros Hws Hne. unfold count_words.
  rewrite split_whitespace_app by done. split; [done | apply length_app].
Qed.

Lemma count_words_additive_witness :
  split_whitespace (lit "Morning Run" ++ [LF; 32%N] ++ lit "Felt Great")
  = split_whitespace (lit "Morning Run") ++ split_whitespace (lit "Felt Great")
  ∧ count_words (lit "Morning Run" ++ [LF; 32%N] ++ lit "Felt Great")
    = count_words (lit "Morning Run") + count_words (lit "Felt Great").
Proof.
  refine (count_words_additive (lit "Morning Run") [LF; 32%N] (lit "Felt Great") _ _).
  - repeat constructor.
  - discriminate.
Defined.

(** X2: whitespace around a text does not change its word count; in
    particular the count of a text is the count of the text trimmed by
    [str.strip()]. *)
Theorem count_words_padding :
  (∀ ws1 s ws2,
      Forall (λ c, isspace c) ws1 → Forall (λ c, isspace c) ws2 →
      count_words (ws1 ++ s ++ ws2) = count_words s)
  ∧ ∀ s, count_words (strip s) = count_words s.
Proof.
  assert (∀ ws1 s ws2,
             Forall (λ c, isspace c) ws1 → Forall (λ c, isspace c) ws2 →
             count_words (ws1 ++ s ++ ws2) = count_words s) as Hpad.
  { intros ws1 s ws2 Hws1 Hws2. unfold count_words.
    by rewrite split_whitespace_spaces, split_whitespace_trailing. }
  split; [exact Hpad |].
  intros s. destruct (strip_spaces_around s) as (a & b & Ha & Hb & Hs & _).
  rewrite Hs at 2. by rewrite Hpad.
Qed.

(** X3: the word count is 0 exactly when the text holds nothing but
    whitespace. *)
Theorem count_words_zero text :
  count_words text = 0 ↔ Forall (λ c, isspace c) text.
Proof.
  split; [| apply count_words_whitespace].
  unfold count_words. induction text as [| c s IH]; [done |].
  destruct (isspace c) eqn:Hc.
  - simpl. rewrite Hc. intros Hzero. constructor; [by rewrite Hc | by apply IH].
  - intros Hzero. pose proof (split_whitespace_word c s Hc) as Hne.
    by destruct (split_whitespace (c :: s)).
Qed.

Lemma count_words_bound_from s :
  2 * count_words s ≤ length s + 1
  ∧ (match s with
     | c :: _ => isspace c = true
     | [] => True
     end → 2 * count_words s ≤ length s).
Proof.
  unfold count_words. induction s as [| c s' [IH1 IH2]]; [simpl; lia |].
  cbn [split_whitespace length]. destruct (isspace c) eqn:Hc.
  - split; [lia | intros _; lia].
  - split; [| done].
    destruct s' as [| d s'']; [simpl; lia |].
    destruct (isspace d) eqn:Hd.
    + specialize (IH2 eq_refl). cbn [length] in *. lia.
    + pose proof (split_whitespace_word d s'' Hd) as Hne.
      destruct (split_whitespace (d :: s'')); [done |].
      cbn [length] in *. lia.
Qed.

(** X4: a text of [n] characters has at most [(n + 1) / 2] words. *)
Theorem count_words_bound text : 2 * count_words text ≤ length text + 1.
Proof. apply count_words_bound_from. Qed.

(** ** Repeated updates of the description *)

Lemma startswith_overlap e sep a r :
  e ∉ sep → startswith (e :: sep) (a ++ e :: r) = true →
  a = [] ∨ startswith (e :: sep) a = true.
Proof.
  intros He. destruct a as [| b a']; [by left |].
  cbn [app startswith]. rewrite !andb_true_iff. intros [Hb Hrest].
  right. split; [done |]. by eapply startswith_barrier.
Qed.

(** A separator whose first character does not come back in it is
    found right after a text that does not hold it. *)
Lemma find_after_absent e sep p r :
  e ∉ sep → absent (e :: sep) p →
  find (e :: sep) (p ++ (e :: sep) ++ r) = Some (length p).
Proof.
  intros He. induction p as [| c p' IH]; intros Habs.
  - change (find (e :: sep) ((e :: sep) ++ r) = Some 0).
    by rewrite find_unfold, startswith_app.
  - rewrite find_unfold.
    destruct (startswith (e :: sep) ((c :: p') ++ (e :: sep) ++ r)) eqn:Hstart.
    + apply startswith_overlap in Hstart as [? | Hstart]; [done | | done].
      apply startswith_occurs in Hstart. by destruct (Habs 0).
    + change (S <$> find (e :: sep) (p' ++ (e :: sep) ++ r) = Some (S (length p'))).
      rewrite IH; [done | by eapply absent_tail].
Qed.

Lemma absent_app_foreign sep q x y :
  x ∉ sep → y ∉ sep → sep ≠ [] → absent sep q → absent sep (q ++ [x; y]).
Proof.
  intros Hx Hy Hsep Habs. apply find_None.
  induction q as [| c q' IH].
  - destruct sep as [| e sep']; [done |].
    apply not_elem_of_cons in Hx as [Hx _]. apply not_elem_of_cons in Hy as [Hy _].
    cbn. destruct (N.eqb_spec e x) as [-> | _]; [done |].
    destruct (N.eqb_spec e y) as [-> | _]; [done |]. cbn.
    by destruct sep'.
  - rewrite find_unfold.
    destruct (startswith sep ((c :: q') ++ [x; y])) eqn:Hstart.
    + apply (startswith_barrier sep (c :: q')) in Hstart; [| done].
      apply startswith_occurs in Hstart. by destruct (Habs 0).
    + cbn [app]. rewrite IH; [done | by eapply absent_tail].
Qed.

Lemma strip_app_spaces x ws : Forall (λ c, isspace c) ws → strip (x ++ ws) = strip x.
Proof.
  intros Hws. destruct (strip_spaces_around x) as (a & b & Ha & Hb & Hx & Hhead & Hlast).
  rewrite Hx at 1. rewrite <- !app_assoc.
  apply strip_core; [done | by apply Forall_app | done | done].
Qed.

Lemma strip_idempotent x : strip (strip x) = strip x.
Proof.
  destruct (strip_spaces_around x) as (_ & _ & _ & _ & _ & Hhead & Hlast).
  rewrite <- (app_nil_r (strip x)) at 1.
  by apply (strip_core [] (strip x) []).
Qed.

Lemma marker_first_once :
  marker = [121; 97; 112; 32; 115; 99; 111; 114; 101; 58]%N
  ∧ (LF ∉ marker)
  ∧ (121%N ∉ [97; 112; 32; 115; 99; 111; 114; 101; 58]%N).
Proof.
  split; [reflexivity |].
  split; intros Hin; apply list_elem_of_In in Hin; cbv in Hin; intuition discriminate.
Qed.

(** After one update the marker stands where the score block begins. *)
Lemma find_in_updated q n :
  absent marker q →
  find marker (q ++ score_block n) = Some (length (q ++ [LF; LF]))
  ∧ take (length (q ++ [LF; LF])) (q ++ score_block n) = q ++ [LF; LF].
Proof.
  intros Habs. destruct marker_first_once as (Hmarker & Hlf & Honce).
  assert (q ++ score_block n = (q ++ [LF; LF]) ++ marker ++ lit " " ++ decimal n) as ->.
  { unfold score_block. by rewrite <- !app_assoc. }
  split; [| by rewrite take_app_length].
  assert (absent marker (q ++ [LF; LF])) as Habs'.
  { apply absent_app_foreign; [done | done | by rewrite Hmarker | done]. }
  rewrite Hmarker in *. by apply find_after_absent.
Qed.

Section Updates.

Variable format_value : json → str.

(** An update of a description that an update has made: the score
    block is replaced and what stood before it is trimmed. *)
Lemma new_description_again (m : gmap str json) q n t :
  absent marker q →
  dict_get (JObj m) (lit "name") (JStr []) = Returns (JStr t) →
  new_description format_value (JObj (<[lit "description" := JStr (q ++ score_block n)]> m))
  = Returns (strip q ++ score_block (count_words t), count_words t).
Proof.
  intros Habs Ht.
  rewrite (new_description_strings format_value _ (q ++ score_block n) t).
  - destruct (find_in_updated q n Habs) as [-> ->].
    rewrite strip_app_spaces; [done |]. by repeat constructor.
  - unfold dict_get. by rewrite lookup_insert_eq.
  - unfold dict_get in *. rewrite lookup_insert_ne; [done |]. apply description_ne_name.
Qed.

(** X5: the update of the description is stable from the second time
    on: a third update with the same title gives what the second gave.
    The second already gives what the first gave when the marker
    occurs in the old description, and when the old description
    neither begins nor ends with whitespace. *)
Theorem description_update_stable (m : gmap str json) d t :
  dict_get (JObj m) (lit "description") (JStr []) = Returns (JStr d) →
  dict_get (JObj m) (lit "name") (JStr []) = Returns (JStr t) →
  ∃ once twice,
    new_description format_value (JObj m) = Returns (once, count_words t)
    ∧ new_description format_value (JObj (<[lit "description" := JStr once]> m))
      = Returns (twice, count_words t)
    ∧ new_description format_value (JObj (<[lit "description" := JStr twice]> m))
      = Returns (twice, count_words t)
    ∧ ((∃ i, occurs_at marker d i) ∨ strip d = d → twice = once).
Proof.
  intros Hd Ht.
  pose proof (kept_absent d) as Habs.
  eexists. eexists.
  split; [by apply new_description_strings |].
  split; [by apply new_description_again |].
  split.
  - rewrite (new_description_again m _ (count_words t) t); [| | done].
    + by rewrite strip_idempotent.
    + destruct (strip_infix (match find marker d with
                             | Some i => strip (take i d)
                             | None => d
                             end)) as (a & b & Hab).
      apply (absent_infix marker a _ b). by rewrite <- Hab.
  - intros Hcase. f_equal.
    destruct (find marker d) as [i |] eqn:Hfind; [apply strip_idempotent |].
    destruct Hcase as [[i Hocc] | Hstrip]; [| done].
    apply find_None in Hfind. by destruct (Hfind i).
Qed.

(** X6: after two updates the description does not depend on the
    title of the first: it is what two updates with the second title
    give. *)
Theorem last_title_wins (m : gmap str json) d t1 t2 :
  dict_get (JObj m) (lit "description") (JStr []) = Returns (JStr d) →
  ∃ first_t1 first_t2 twice,
    new_description format_value (JObj (<[lit "name" := JStr t1]> m))
    = Returns (first_t1, count_words t1)
    ∧ new_description format_value (JObj (<[lit "name" := JStr t2]> m))
      = Returns (first_t2, count_words t2)
    ∧ new_description format_value
        (JObj (<[lit "description" := JStr first_t1]> (<[lit "name" := JStr t2]> m)))
      = Returns (twice, count_words t2)
    ∧ new_description format_value
        (JObj (<[lit "description" := JStr first_t2]> (<[lit "name" := JStr t2]> m)))
      = Returns (twice, count_words t2).
Proof.
  intros Hd.
  assert (∀ t, dict_get (JObj (<[lit "name" := JStr t]> m)) (lit "description") (JStr [])
               = Returns (JStr d)) as Hd'.
  { intros t. unfold dict_get in *. rewrite lookup_insert_ne; [done |].
    intros Heq. symmetry in Heq. by apply description_ne_name. }
  assert (∀ t, dict_get (JObj (<[lit "name" := JStr t]> m)) (lit "name") (JStr [])
               = Returns (JStr t)) as Hname.
  { intros t. unfold dict_get. by rewrite lookup_insert_eq. }
  pose proof (kept_absent d) as Habs.
  eexists. eexists. eexists.
  split; [by apply new_description_strings |].
  split; [by apply new_description_strings |].
  split; by apply new_description_again.
Qed.

(** X7: what follows the first marker in the old description is
    dropped, whatever it is: only what stands before the marker,
    trimmed, goes into the new description. *)
Theorem text_after_marker_dropped activity p rest t :
  dict_get activity (lit "description") (JStr []) = Returns (JStr (p ++ marker ++ rest)) →
  dict_get activity (lit "name") (JStr []) = Returns (JStr t) →
  absent marker p →
  new_description format_value activity
  = Returns (strip p ++ score_block (count_words t), count_words t).
Proof.
  intros Hd Ht Habs. rewrite (new_description_strings _ _ _ _ Hd Ht).
  destruct marker_first_once as (Hmarker & _ & Honce).
  rewrite Hmarker in *. rewrite find_after_absent by done.
  by rewrite take_app_length.
Qed.

End Updates.

Lemma description_update_stable_witness :
  ∃ once twice,
    new_description (λ _, []) morning_run = Returns (once, 4)
    ∧ new_description (λ _, []) (JObj (<[lit "description" := JStr once]> morning_run_fields))
      = Returns (twice, 4)
    ∧ new_description (λ _, []) (JObj (<[lit "description" := JStr twice]> morning_run_fields))
      = Returns (twice, 4)
    ∧ ((∃ i, occurs_at marker (lit "Nice day" ++ [LF; LF] ++ lit "yap score: 2") i)
       ∨ strip (lit "Nice day" ++ [LF; LF] ++ lit "yap score: 2")
         = lit "Nice day" ++ [LF; LF] ++ lit "yap score: 2" → twice = once).
Proof.
  exact (description_update_stable (λ _, []) morning_run_fields
           (lit "Nice day" ++ [LF; LF] ++ lit "yap score: 2")
           (lit "Morning Run Felt Great") eq_refl eq_refl).
Defined.

Lemma last_title_wins_witness :
  ∃ first_t1 first_t2 twice,
    new_description (λ _, []) (JObj (<[lit "name" := JStr (lit "Run")]> morning_run_fields))
    = Returns (first_t1, 1)
    ∧ new_description (λ _, [])
        (JObj (<[lit "name" := JStr (lit "Long Run")]> morning_run_fields))
      = Returns (first_t2, 2)
    ∧ new_description (λ _, [])
        (JObj (<[lit "description" := JStr first_t1]>
               (<[lit "name" := JStr (lit "Long Run")]> morning_run_fields)))
      = Returns (twice, 2)
    ∧ new_description (λ _, [])
        (JObj (<[lit "description" := JStr first_t2]>
               (<[lit "name" := JStr (lit "Long Run")]> morning_run_fields)))
      = Returns (twice, 2).
Proof.
  exact (last_title_wins (λ _, []) morning_run_fields
           (lit "Nice day" ++ [LF; LF] ++ lit "yap score: 2")
           (lit "Run") (lit "Long Run") eq_refl).
Defined.

Lemma text_after_marker_dropped_witness :
  new_description (λ _, []) morning_run
  = Returns (strip (lit "Nice day" ++ [LF; LF]) ++ score_block 4, 4).
Proof.
  refine (text_after_marker_dropped (λ _, []) morning_run (lit "Nice day" ++ [LF; LF])
            (lit " 2") (lit "Morning Run Felt Great") eq_refl eq_refl _).
  apply find_None. reflexivity.
Defined.

(** ** More on the token cache *)

Lemma access_token_ne_expires_at : lit "expires_at" ≠ lit "access_token".
Proof. intros Heq. vm_compute in Heq. discriminate. Qed.

(** What [load_tokens] returns, if not [None], is the object in the
    file, and the clock is strictly before its [expires_at]. *)
Lemma load_tokens_returns E file v file' evs :
  load_tokens E file = (Returns v, file', evs) → v ≠ JNull →
  file = Stored (Doc v)
  ∧ ∃ m x limit, v = JObj m ∧ m !! lit "expires_at" = Some x
                 ∧ as_number x = Returns limit
                 ∧ before (time_at_load E) limit = true.
Proof.
  unfold load_tokens. destruct file as [| | [| | w]]; run; intros; simplify_eq.
  split; [done |].
  destruct v as [| | | | | m]; try done.
  simpl in *. destruct (m !! lit "expires_at") as [x |] eqn:Hkey; [| done].
  simplify_eq. by eexists _, _, _.
Qed.

(** X8: [load_tokens] only reads: whatever stands under the name of
    the token file and whatever the call comes to, the file is as
    before and the one event is the attempt to open it for reading. *)
Theorem load_tokens_reads_only E file :
  (load_tokens E file).1.2 = file ∧ (load_tokens E file).2 = [OpenRead].
Proof. destruct (load_tokens_frame E file) as [o ->]. done. Qed.

(** X9: a value that [load_tokens] returns, if not [None], is the JSON
    object that the file holds, and the clock is strictly before the
    number under its key ["expires_at"]: an expired record is never
    returned. *)
Theorem load_tokens_sound E file v :
  (load_tokens E file).1.1 = Returns v → v ≠ JNull →
  file = Stored (Doc v)
  ∧ ∃ m x limit, v = JObj m ∧ m !! lit "expires_at" = Some x
                 ∧ as_number x = Returns limit
                 ∧ earlier (time_at_load E) limit.
Proof.
  intros Hload Hv. destruct (load_tokens_frame E file) as [o Ho].
  rewrite Ho in Hload. simpl in Hload. subst o.
  destruct (load_tokens_returns _ _ _ _ _ Ho Hv)
    as (Hfile & m & x & limit & -> & Hkey & Hnum & Hbefore).
  split; [done |]. exists m, x, limit. by rewrite <- before_earlier.
Qed.

Lemma load_tokens_sound_witness :
  Stored (Doc saved_tokens) = Stored (Doc saved_tokens)
  ∧ ∃ m x limit, saved_tokens = JObj m ∧ m !! lit "expires_at" = Some x
                 ∧ as_number x = Returns limit
                 ∧ earlier (time_at_load (answering 200 None)) limit.
Proof.
  refine (load_tokens_sound (answering 200 None) (Stored (Doc saved_tokens)) saved_tokens _ _).
  - vm_compute. reflexivity.
  - discriminate.
Defined.


(** X11: a record that [save_tokens] has written is what [load_tokens]
    returns next, as long as the clock is strictly before its
    ["expires_at"]; afterwards [load_tokens] returns [None].  Under a
    name that is a directory [save_tokens] raises and writes nothing. *)
Theorem save_then_load E m limit :
  m !! lit "expires_at" = Some (JNum limit) →
  (∀ file, file ≠ Directory →
     (save_tokens (JObj m) ≫= λ _, load_tokens E) file
     = (Returns (if before (time_at_load E) limit then JObj m else JNull),
        Stored (Doc (JObj m)), [OpenWrite; OpenRead]))
  ∧ save_tokens (JObj m) Directory = (Raises IsADirectoryError, Directory, [OpenWrite]).
Proof.
  intros Hkey. split; [| done].
  intros file Hfile. unfold mbind at 1. unfold M_bind at 1.
  assert (save_tokens (JObj m) file = (Returns tt, Stored (Doc (JObj m)), [OpenWrite])) as ->.
  { by destruct file. }
  destruct (before (time_at_load E) limit) eqn:Hbefore.
  - by rewrite (load_tokens_hit E m (JNum limit) limit).
  - by rewrite (load_tokens_expired E m (JNum limit) limit).
Qed.

Lemma save_then_load_witness :
  (save_tokens saved_tokens ≫= λ _, load_tokens (answering 200 None)) Missing
  = (Returns saved_tokens, Stored (Doc saved_tokens), [OpenWrite; OpenRead]).
Proof.
  refine (proj1 (save_then_load (answering 200 None) _ (Finite (1000 + 21600)) _) Missing _).
  - vm_compute. reflexivity.
  - discriminate.
Defined.

(** ** More on the exchange *)

Lemma cache_miss_not_directory E file :
  (load_tokens E file).1.1 = Returns JNull →
  load_tokens E file = (Returns JNull, file, [OpenRead]) ∧ file ≠ Directory.
Proof.
  intros Hload. destruct (load_tokens_frame E file) as [o Ho].
  rewrite Ho in Hload. simpl in Hload. subst o.
  split; [done |]. by intros ->.
Qed.

(** The flow when the token endpoint answers with a status that
    [raise_for_status] lets pass and a JSON object that holds a number
    under ["expires_in"]. *)
Lemma authorization_flow_exchange float_add E cid secret file code r m x span limit :
  file ≠ Directory →
  port_free E = true → auth_code E = Some code →
  token_endpoint E cid secret code = Responds r →
  ¬ (400 ≤ status_code r < 600)%Z →
  json_body r = Some (JObj m) →
  m !! lit "expires_in" = Some x → as_number x = Returns span →
  float_add (time_at_exchange E) span = Some limit →
  authorization_flow float_add E cid secret file
  = (match m !! lit "access_token" with
     | Some tok => Returns tok
     | None => Raises KeyError
     end,
     Stored (Doc (JObj (<[lit "expires_at" := JNum limit]> m))),
     [Console StartingOAuthFlow; Listen; Browser cid; CloseListener;
      Post cid secret code; OpenWrite]).
Proof.
  intros Hfile Hport Hcode Hreply Hstatus Hbody Hkey Hnum Hadd.
  apply not_error_status in Hstatus.
  unfold authorization_flow. unfold_script. cbn -[lookup insert].
  rewrite Hport, Hcode. cbn -[lookup insert]. rewrite Hreply. cbn -[lookup insert].
  rewrite Hstatus. cbn -[lookup insert]. rewrite Hbody. cbn -[lookup insert].
  rewrite Hkey. cbn -[lookup insert]. rewrite Hnum. cbn -[lookup insert].
  rewrite Hadd. cbn -[lookup insert].
  rewrite lookup_insert_ne by apply access_token_ne_expires_at.
  destruct file; [| done |]; by destruct (m !! lit "access_token").
Qed.

(** X12: when [get_access_token] finds no token to reuse, the user
    hands over a code, and the token endpoint answers the POST with a
    status outside 400-599 and a JSON object that holds the access
    token and a number of seconds under ["expires_in"], the call
    returns that access token.  The token file then holds the object
    of the answer with ["expires_at"] set to the sum of the clock and
    ["expires_in"], and the events are those of one exchange: one POST
    with the client id, the client secret and the code, then the
    write. *)
Theorem exchange_success float_add E cid secret file code r m x span limit tok :
  (load_tokens E file).1.1 = Returns JNull →
  port_free E = true → auth_code E = Some code →
  token_endpoint E cid secret code = Responds r →
  ¬ (400 ≤ status_code r < 600)%Z →
  json_body r = Some (JObj m) →
  m !! lit "expires_in" = Some x → as_number x = Returns span →
  float_add (time_at_exchange E) span = Some limit →
  m !! lit "access_token" = Some tok →
  get_access_token float_add E cid secret file
  = (Returns tok, Stored (Doc (JObj (<[lit "expires_at" := JNum limit]> m))),
     [OpenRead; Console StartingOAuthFlow; Listen; Browser cid; CloseListener;
      Post cid secret code; OpenWrite]).
Proof.
  intros Hload Hport Hcode Hreply Hstatus Hbody Hkey Hnum Hadd Htok.
  apply cache_miss_not_directory in Hload as [Hload Hfile].
  rewrite get_access_token_miss by done.
  rewrite (authorization_flow_exchange _ _ _ _ _ code r m x span limit) by done.
  by rewrite Htok.
Qed.

Lemma exchange_success_witness :
  get_access_token exact_add (answering 200 (Some fresh_tokens)) CLIENT_ID CLIENT_SECRET Missing
  = (Returns (JStr (lit "abc")), Stored (Doc saved_tokens),
     [OpenRead; Console StartingOAuthFlow; Listen; Browser CLIENT_ID; CloseListener;
      Post CLIENT_ID CLIENT_SECRET (lit "code"); OpenWrite]).
Proof.
  refine (exchange_success exact_add (answering 200 (Some fresh_tokens))
            CLIENT_ID CLIENT_SECRET Missing (lit "code")
            {| status_code := 200; json_body := Some fresh_tokens |}
            _ (JNum (Finite 21600)) (Finite 21600) (Finite (1000 + 21600))
            (JStr (lit "abc")) eq_refl eq_refl eq_refl eq_refl _ eq_refl _ eq_refl _ _).
  - simpl. lia.
  - vm_compute. reflexivity.
  - vm_compute. reflexivity.
  - vm_compute. reflexivity.
Defined.

(** X13: the token that an exchange has stored is reused: after a call
    that went through the exchange, a later call, whatever its
    surroundings, returns the same access token without any request,
    as long as its clock is strictly before the stored
    ["expires_at"]. *)
Theorem exchange_then_reuse float_add E cid secret file code r m x span limit tok
    float_add' E' cid' secret' :
  (load_tokens E file).1.1 = Returns JNull →
  port_free E = true → auth_code E = Some code →
  token_endpoint E cid secret code = Responds r →
  ¬ (400 ≤ status_code r < 600)%Z →
  json_body r = Some (JObj m) →
  m !! lit "expires_in" = Some x → as_number x = Returns span →
  float_add (time_at_exchange E) span = Some limit →
  m !! lit "access_token" = Some tok →
  earlier (time_at_load E') limit →
  let stored := (get_access_token float_add E cid secret file).1.2 in
  get_access_token float_add' E' cid' secret' stored
  = (Returns tok, stored, [OpenRead; Console UsingExistingToken]).
Proof.
  intros Hload Hport Hcode Hreply Hstatus Hbody Hkey Hnum Hadd Htok Hearly.
  apply cache_miss_not_directory in Hload as [Hload Hfile].
  rewrite get_access_token_miss by done.
  rewrite (authorization_flow_exchange _ _ _ _ _ code r m x span limit) by done.
  cbn -[lookup insert]. apply before_earlier in Hearly.
  rewrite (get_access_token_hit _ _ _ _ _ (JObj (<[lit "expires_at" := JNum limit]> m))).
  - unfold getitem.
    rewrite lookup_insert_ne by apply access_token_ne_expires_at. by rewrite Htok.
  - apply (load_tokens_hit E' _ (JNum limit) limit); [apply lookup_insert_eq | done | done].
  - apply (truthy_getitem _ (lit "expires_at") (JNum limit)).
    unfold getitem. by rewrite lookup_insert_eq.
Qed.

Lemma exchange_then_reuse_witness :
  get_access_token exact_add (answering 500 None) CLIENT_ID CLIENT_SECRET
    (get_access_token exact_add (answering 200 (Some fresh_tokens))
       CLIENT_ID CLIENT_SECRET Missing).1.2
  = (Returns (JStr (lit "abc")),
     (get_access_token exact_add (answering 200 (Some fresh_tokens))
        CLIENT_ID CLIENT_SECRET Missing).1.2,
     [OpenRead; Console UsingExistingToken]).
Proof.
  refine (exchange_then_reuse exact_add (answering 200 (Some fresh_tokens))
            CLIENT_ID CLIENT_SECRET Missing (lit "code")
            {| status_code := 200; json_body := Some fresh_tokens |}
            _ (JNum (Finite 21600)) (Finite 21600) (Finite (1000 + 21600))
            (JStr (lit "abc")) exact_add (answering 500 None) CLIENT_ID CLIENT_SECRET
            eq_refl eq_refl eq_refl eq_refl _ eq_refl _ eq_refl _ _ _).
  - simpl. lia.
  - vm_compute. reflexivity.
  - vm_compute. reflexivity.
  - vm_compute. reflexivity.
  - vm_compute. reflexivity.
Defined.

(** X14: an answer of the token endpoint without ["access_token"] is
    written to the token file before the missing key makes the call
    raise [KeyError]; as long as that record has not expired, every
    later call raises [KeyError] as well, without any request. *)
Theorem exchange_without_access_token float_add E cid secret file code r m x span limit
    float_add' E' cid' secret' :
  (load_tokens E file).1.1 = Returns JNull →
  port_free E = true → auth_code E = Some code →
  token_endpoint E cid secret code = Responds r →
  ¬ (400 ≤ status_code r < 600)%Z →
  json_body r = Some (JObj m) →
  m !! lit "expires_in" = Some x → as_number x = Returns span →
  float_add (time_at_exchange E) span = Some limit →
  m !! lit "access_token" = None →
  earlier (time_at_load E') limit →
  let stored := Stored (Doc (JObj (<[lit "expires_at" := JNum limit]> m))) in
  get_access_token float_add E cid secret file
  = (Raises KeyError, stored,
     [OpenRead; Console StartingOAuthFlow; Listen; Browser cid; CloseListener;
      Post cid secret code; OpenWrite])
  ∧ get_access_token float_add' E' cid' secret' stored
    = (Raises KeyError, stored, [OpenRead; Console UsingExistingToken]).
Proof.
  intros Hload Hport Hcode Hreply Hstatus Hbody Hkey Hnum Hadd Htok Hearly.
  apply cache_miss_not_directory in Hload as [Hload Hfile].
  cbn zeta. split.
  - rewrite get_access_token_miss by done.
    rewrite (authorization_flow_exchange _ _ _ _ _ code r m x span limit) by done.
    by rewrite Htok.
  - apply before_earlier in Hearly.
    rewrite (get_access_token_hit _ _ _ _ _ (JObj (<[lit "expires_at" := JNum limit]> m))).
    + unfold getitem.
      rewrite lookup_insert_ne by apply access_token_ne_expires_at. by rewrite Htok.
    + apply (load_tokens_hit E' _ (JNum limit) limit); [apply lookup_insert_eq | done | done].
    + apply (truthy_getitem _ (lit "expires_at") (JNum limit)).
      unfold getitem. by rewrite lookup_insert_eq.
Qed.

Lemma exchange_without_access_token_witness :
  let stored :=
    Stored (Doc (JObj (<[lit "expires_at" := JNum (Finite (1000 + 21600))]>
                       {[lit "expires_in" := JNum (Finite 21600)]}))) in
  get_access_token exact_add
    (answering 200 (Some (JObj {[lit "expires_in" := JNum (Finite 21600)]})))
    CLIENT_ID CLIENT_SECRET Missing
  = (Raises KeyError, stored,
     [OpenRead; Console StartingOAuthFlow; Listen; Browser CLIENT_ID; CloseListener;
      Post CLIENT_ID CLIENT_SECRET (lit "code"); OpenWrite])
  ∧ get_access_token exact_add (answering 500 None) CLIENT_ID CLIENT_SECRET stored
    = (Raises KeyError, stored, [OpenRead; Console UsingExistingToken]).
Proof.
  refine (exchange_without_access_token exact_add
            (answering 200 (Some (JObj {[lit "expires_in" := JNum (Finite 21600)]})))
            CLIENT_ID CLIENT_SECRET Missing (lit "code")
            {| status_code := 200;
               json_body := Some (JObj {[lit "expires_in" := JNum (Finite 21600)]}) |}
            _ (JNum (Finite 21600)) (Finite 21600) (Finite (1000 + 21600))
            exact_add (answering 500 None) CLIENT_ID CLIENT_SECRET
            eq_refl eq_refl eq_refl eq_refl _ eq_refl _ eq_refl _ _ _).
  - simpl. lia.
  - vm_compute. reflexivity.
  - vm_compute. reflexivity.
  - vm_compute. reflexivity.
  - vm_compute. reflexivity.
Defined.

(** X15: when there is no token to reuse and no request with a code
    ever reaches the listener, [get_access_token] never returns: the
    wait loop of line 90 has no end.  By then the listener is up and
    the browser is opened; nothing was sent to the token endpoint and
    the token file is as before. *)
Theorem no_callback_no_return float_add E cid secret file :
  (load_tokens E file).1.1 = Returns JNull →
  port_free E = true → auth_code E = None →
  get_access_token float_add E cid secret file
  = (Diverges, file, [OpenRead; Console StartingOAuthFlow; Listen; Browser cid]).
Proof.
  intros Hload Hport Hcode.
  apply cache_miss_not_directory in Hload as [Hload _].
  rewrite get_access_token_miss by done.
  unfold authorization_flow. unfold_script. cbn. by rewrite Hport, Hcode.
Qed.

Lemma no_callback_no_return_witness :
  get_access_token exact_add (unanswered true) CLIENT_ID CLIENT_SECRET Missing
  = (Diverges, Missing, [OpenRead; Console StartingOAuthFlow; Listen; Browser CLIENT_ID]).
Proof.
  exact (no_callback_no_return exact_add (unanswered true) CLIENT_ID CLIENT_SECRET Missing
           eq_refl eq_refl eq_refl).
Defined.

(** X16: when there is no token to reuse and port 8000 is taken,
    [get_access_token] raises the error of the listener before the
    browser is opened and before any request. *)
Theorem port_taken float_add E cid secret file :
  (load_tokens E file).1.1 = Returns JNull →
  port_free E = false →
  get_access_token float_add E cid secret file
  = (Raises AddressInUse, file, [OpenRead; Console StartingOAuthFlow; Listen]).
Proof.
  intros Hload Hport.
  apply cache_miss_not_directory in Hload as [Hload _].
  rewrite get_access_token_miss by done.
  unfold authorization_flow. unfold_script. cbn. by rewrite Hport.
Qed.

Lemma port_taken_witness :
  get_access_token exact_add (unanswered false) CLIENT_ID CLIENT_SECRET Missing
  = (Raises AddressInUse, Missing, [OpenRead; Console StartingOAuthFlow; Listen]).
Proof.
  exact (port_taken exact_add (unanswered false) CLIENT_ID CLIENT_SECRET Missing
           eq_refl eq_refl).
Defined.

Lemma setitem_Returns v key x v' :
  setitem v key x = Returns v' → ∃ m, v = JObj m ∧ v' = JObj (<[key := x]> m).
Proof. destruct v as [| | | | | m]; try done. intros [= <-]. by exists m. Qed.

Lemma getitem_Returns v key x :
  getitem v key = Returns x → ∃ m, v = JObj m ∧ m !! key = Some x.
Proof.
  destruct v as [| | | | | m]; try done. simpl.
  destruct (m !! key) eqn:Hkey; [| done]. intros [= <-]. by exists m.
Qed.

(** When the flow returns, it has written the record that holds the
    token it returns. *)
Lemma authorization_flow_returns float_add E cid secret file tok file' evs :
  authorization_flow float_add E cid secret file = (Returns tok, file', evs) →
  ∃ m x, file' = Stored (Doc (JObj m))
         ∧ m !! lit "access_token" = Some tok
         ∧ m !! lit "expires_at" = Some (JNum x).
Proof.
  unfold authorization_flow. run; intros; simplify_eq.
  all: repeat match goal with
         | H : setitem _ _ _ = Returns _ |- _ => apply setitem_Returns in H as (? & -> & ->)
         | H : getitem (JObj _) _ = Returns _ |- _ =>
             apply getitem_Returns in H as (? & ? & ?)
         end; simplify_eq.
  all: eexists _, _; split; [done |]; split; [done | apply lookup_insert_eq].
Qed.

(** X17: whenever [get_access_token] returns, the token file holds a
    JSON object whose ["access_token"] is the value returned and whose
    ["expires_at"] is a number or a boolean. *)
Theorem returned_token_is_stored float_add E cid secret file tok :
  (get_access_token float_add E cid secret file).1.1 = Returns tok →
  ∃ m x limit,
    (get_access_token float_add E cid secret file).1.2 = Stored (Doc (JObj m))
    ∧ m !! lit "access_token" = Some tok
    ∧ m !! lit "expires_at" = Some x
    ∧ as_number x = Returns limit.
Proof.
  destruct (load_tokens_frame E file) as [o Hload].
  destruct o as [v | e |].
  - destruct (load_tokens_result _ _ _ _ _ Hload) as [-> | [Htrue _]].
    + rewrite get_access_token_miss by done.
      destruct (authorization_flow float_add E cid secret file) as [[o f] evs] eqn:Hflow.
      simpl. intros ->.
      apply authorization_flow_returns in Hflow as (m & x & -> & Htok & Hexp).
      by exists m, (JNum x), x.
    + assert (v ≠ JNull) as Hv by (by intros ->).
      destruct (load_tokens_returns _ _ _ _ _ Hload Hv)
        as (-> & m & x & limit & -> & Hkey & Hnum & _).
      rewrite (get_access_token_hit _ _ _ _ _ (JObj m)); [| done |].
      * simpl. destruct (m !! lit "access_token") as [tok' |] eqn:Htok; [| done].
        intros [= <-]. by exists m, x, limit.
      * apply (truthy_getitem _ (lit "expires_at") x). simpl. by rewrite Hkey.
  - by rewrite (get_access_token_load_fails _ _ _ _ _ (Raises e)).
  - by rewrite (get_access_token_load_fails _ _ _ _ _ Diverges).
Qed.

Lemma returned_token_is_stored_witness :
  ∃ m x limit,
    (get_access_token exact_add (answering 200 (Some fresh_tokens))
       CLIENT_ID CLIENT_SECRET Missing).1.2 = Stored (Doc (JObj m))
    ∧ m !! lit "access_token" = Some (JStr (lit "abc"))
    ∧ m !! lit "expires_at" = Some x
    ∧ as_number x = Returns limit.
Proof.
  refine (returned_token_is_stored exact_add (answering 200 (Some fresh_tokens))
            CLIENT_ID CLIENT_SECRET Missing (JStr (lit "abc")) _).
  vm_compute. reflexivity.
Defined.

Lemma authorization_flow_counts float_add E cid secret file :
  let evs := (authorization_flow float_add E cid secret file).2 in
  count is_post evs ≤ 1 ∧ count is_write evs ≤ 1
  ∧ count is_get evs = 0 ∧ count is_put evs = 0 ∧ count is_remove evs = 0.
Proof.
  unfold authorization_flow. run; unfold count; cbn; repeat split; lia.
Qed.

Lemma get_access_token_counts float_add E cid secret file :
  let evs := (get_access_token float_add E cid secret file).2 in
  count is_post evs ≤ 1 ∧ count is_write evs ≤ 1
  ∧ count is_get evs = 0 ∧ count is_put evs = 0 ∧ count is_remove evs = 0.
Proof.
  destruct (load_tokens_frame E file) as [o Hload].
  destruct o as [v | e |].
  - destruct (load_tokens_result _ _ _ _ _ Hload) as [-> | [Htrue ->]].
    + rewrite get_access_token_miss by done.
      pose proof (authorization_flow_counts float_add E cid secret file) as Hflow.
      destruct (authorization_flow float_add E cid secret file) as [[o f] evs].
      exact Hflow.
    + rewrite (get_access_token_hit _ _ _ _ _ v) by done.
      unfold count. cbn. repeat split; lia.
  - rewrite (get_access_token_load_fails _ _ _ _ _ (Raises e)) by done.
    unfold count. cbn. repeat split; lia.
  - rewrite (get_access_token_load_fails _ _ _ _ _ Diverges) by done.
    unfold count. cbn. repeat split; lia.
Qed.

(** X18: a call of [get_access_token] sends at most one POST and opens
    the token file for writing at most once; it never removes the
    token file and sends no GET and no PUT. *)
Theorem get_access_token_effects float_add E cid secret file :
  let evs := (get_access_token float_add E cid secret file).2 in
  count is_post evs ≤ 1 ∧ count is_write evs ≤ 1
  ∧ count is_get evs = 0 ∧ count is_put evs = 0 ∧ count is_remove evs = 0.
Proof. apply get_access_token_counts. Qed.

(** ** More on the retrieval of the activity *)

(** X19: a request for the activities that fails on the way, and an
    answer with a status from 400 to 599 other than 401, make
    [get_recent_activity] print the error and return [None]; the token
    file is as before. *)
Theorem request_failure_gives_none E tok id file :
  (∀ k, activities_endpoint E tok id = Fails k →
        get_recent_activity E tok id file
        = (Returns JNull, file, [Get tok id; Console (ErrorMakingRequest k)]))
  ∧ (∀ r, activities_endpoint E tok id = Responds r →
          (400 ≤ status_code r < 600)%Z → status_code r ≠ 401%Z →
          get_recent_activity E tok id file
          = (Returns JNull, file, [Get tok id; Console (ErrorMakingRequest HTTPError)])).
Proof.
  split.
  - intros k Hreply. unfold get_recent_activity. unfold_script. cbn. by rewrite Hreply.
  - intros r Hreply Hstatus Hne. apply error_status in Hstatus.
    apply Z.eqb_neq in Hne.
    unfold get_recent_activity. unfold_script. cbn.
    rewrite Hreply. cbn. rewrite Hne. cbn. by rewrite Hstatus.
Qed.

Lemma request_failure_gives_none_witness :
  get_recent_activity (answering 500 None) JNull ATHLETE_ID Missing
  = (Returns JNull, Missing, [Get JNull ATHLETE_ID; Console (ErrorMakingRequest HTTPError)]).
Proof.
  refine (proj2 (request_failure_gives_none (answering 500 None) JNull ATHLETE_ID Missing)
            {| status_code := 500; json_body := None |} eq_refl _ _).
  - simpl. lia.
  - discriminate.
Defined.



(** X21: when the activities endpoint answers with a status that is
    neither 401 nor from 400 to 599 and with a JSON object that is not
    empty, line 161 raises [KeyError], which the handler for
    [RequestException] lets through. *)
Theorem object_answer_raises (E : env) (tok : json) (id : Z) (file : token_file)
    (r : response) (m : gmap str json) (key : str) (x : json) :
  activities_endpoint E tok id = Responds r →
  status_code r ≠ 401%Z → ¬ (400 ≤ status_code r < 600)%Z →
  json_body r = Some (JObj m) → m !! key = Some x →
  get_recent_activity E tok id file = (Raises KeyError, file, [Get tok id]).
Proof.
  intros Hreply Hne Hstatus Hbody Hkey.
  apply not_error_status in Hstatus. apply Z.eqb_neq in Hne.
  assert (truthy (JObj m) = true) as Htrue.
  { apply (truthy_getitem _ key x). simpl. by rewrite Hkey. }
  unfold get_recent_activity. unfold_script. cbn.
  rewrite Hreply. cbn. rewrite Hne. cbn. rewrite Hstatus. cbn. rewrite Hbody. cbn.
  by rewrite Htrue.
Qed.

Lemma object_answer_raises_witness :
  get_recent_activity (answering 200 (Some morning_run)) JNull ATHLETE_ID Missing
  = (Raises KeyError, Missing, [Get JNull ATHLETE_ID]).
Proof.
  refine (object_answer_raises (answering 200 (Some morning_run)) JNull ATHLETE_ID Missing
            {| status_code := 200; json_body := Some morning_run |}
            morning_run_fields (lit "name") (JStr (lit "Morning Run Felt Great"))
            eq_refl _ _ eq_refl _).
  - discriminate.
  - simpl. lia.
  - vm_compute. reflexivity.
Defined.

Lemma get_recent_activity_counts E tok id file :
  let run := get_recent_activity E tok id file in
  (run.1.2 = file
   ∨ ∃ c r, file = Stored c ∧ run.1.2 = Missing
            ∧ activities_endpoint E tok id = Responds r ∧ status_code r = 401%Z)
  ∧ ∃ rest, run.2 = Get tok id :: rest
            ∧ count is_get rest = 0 ∧ count is_post rest = 0
            ∧ count is_put rest = 0 ∧ count is_write rest = 0.
Proof.
  unfold get_recent_activity. run.
  all: try match goal with
         | H : (_ =? 401)%Z = true |- _ => apply Z.eqb_eq in H
         end.
  all: split; [first [by left | right; by eexists _, _] |].
  all: eexists; split; [done |]; unfold count; cbn; repeat split; lia.
Qed.

(** X22: a call of [get_recent_activity] sends one GET, first of all,
    and no other request, and never opens the token file for writing;
    the token file is as before unless the answer is 401, in which
    case it is gone. *)
Theorem get_recent_activity_effects E tok id file :
  let run := get_recent_activity E tok id file in
  (run.1.2 = file
   ∨ ∃ c r, file = Stored c ∧ run.1.2 = Missing
            ∧ activities_endpoint E tok id = Responds r ∧ status_code r = 401%Z)
  ∧ ∃ rest, run.2 = Get tok id :: rest
            ∧ count is_get rest = 0 ∧ count is_post rest = 0
            ∧ count is_put rest = 0 ∧ count is_write rest = 0.
Proof. apply get_recent_activity_counts. Qed.

(** ** The update of the activity *)


(** ** More on the script as a whole *)


Lemma count_app p evs1 evs2 : count p (evs1 ++ evs2) = count p evs1 + count p evs2.
Proof. unfold count. by rewrite List.filter_app, length_app. Qed.

(** X25: in the script an answer 401 of the activities endpoint never
    raises: when [get_access_token] has returned, the token file is
    there, so the script removes it and ends without any update. *)
Theorem main_unauthorized format_value float_add E file tok file1 evs1 r :
  get_access_token float_add E CLIENT_ID CLIENT_SECRET file = (Returns tok, file1, evs1) →
  activities_endpoint E tok ATHLETE_ID = Responds r →
  status_code r = 401%Z →
  main format_value float_add E file
  = (Returns tt, Missing,
     Console GettingAccessToken :: evs1
     ++ [Console AccessTokenReceived; Console FetchingActivity;
         Get tok ATHLETE_ID; Console TokenExpired; Remove]).
Proof.
  intros Htoken Hreply Hstatus.
  destruct (get_access_token_leaves_file _ _ _ _ _ _ _ _ Htoken) as [c ->].
  pose proof (get_recent_activity_401 E tok ATHLETE_ID r (Stored c) Hreply Hstatus)
    as Hactivity.
  unfold main. unfold_script. cbn.
  rewrite Htoken. cbn. rewrite Hactivity. cbn. by rewrite truthy_null.
Qed.

Lemma main_unauthorized_witness :
  main (λ _, []) exact_add (answering 401 None) (Stored (Doc saved_tokens))
  = (Returns tt, Missing,
     Console GettingAccessToken :: [OpenRead; Console UsingExistingToken]
     ++ [Console AccessTokenReceived; Console FetchingActivity;
         Get (JStr (lit "abc")) ATHLETE_ID; Console TokenExpired; Remove]).
Proof.
  refine (main_unauthorized (λ _, []) exact_add (answering 401 None)
            (Stored (Doc saved_tokens)) (JStr (lit "abc")) (Stored (Doc saved_tokens))
            [OpenRead; Console UsingExistingToken]
            {| status_code := 401; json_body := None |} _ eq_refl eq_refl).
  vm_compute. reflexivity.
Defined.

(** X26: when [get_recent_activity] returns a value that counts as
    false ([None] after an error or an empty list), the script ends
    there: it sends no PUT at all. *)
Theorem no_activity_no_update format_value float_add E file tok file1 evs1
    activity file2 evs2 :
  get_access_token float_add E CLIENT_ID CLIENT_SECRET file = (Returns tok, file1, evs1) →
  get_recent_activity E tok ATHLETE_ID file1 = (Returns activity, file2, evs2) →
  truthy activity = false →
  main format_value float_add E file
  = (Returns tt, file2,
     Console GettingAccessToken :: evs1
     ++ Console AccessTokenReceived :: Console FetchingActivity :: evs2)
  ∧ count is_put (main format_value float_add E file).2 = 0.
Proof.
  intros Htoken Hactivity Hnone.
  assert (main format_value float_add E file
          = (Returns tt, file2,
             Console GettingAccessToken :: evs1
             ++ Console AccessTokenReceived :: Console FetchingActivity :: evs2)) as Hmain.
  { unfold main. unfold_script. cbn.
    rewrite Htoken. cbn. rewrite Hactivity. cbn. rewrite Hnone. cbn.
    by rewrite app_nil_r. }
  split; [done |]. rewrite Hmain. cbn [snd].
  pose proof (get_access_token_counts float_add E CLIENT_ID CLIENT_SECRET file)
    as (_ & _ & _ & Hput1 & _).
  pose proof (get_recent_activity_counts E tok ATHLETE_ID file1)
    as (_ & rest & Hevs & _ & _ & Hput2 & _).
  rewrite Htoken in Hput1. rewrite Hactivity in Hevs. cbn [fst snd] in Hput1, Hevs.
  subst evs2. unfold count in *. cbn [List.filter is_put].
  rewrite List.filter_app. cbn [List.filter is_put].
  rewrite length_app. lia.
Qed.

Lemma no_activity_no_update_witness :
  main (λ _, []) exact_add (answering 200 (Some (JArr []))) (Stored (Doc saved_tokens))
  = (Returns tt, Stored (Doc saved_tokens),
     Console GettingAccessToken :: [OpenRead; Console UsingExistingToken]
     ++ Console AccessTokenReceived :: Console FetchingActivity
        :: [Get (JStr (lit "abc")) ATHLETE_ID; Console (NoActivitiesFound ATHLETE_ID)])
  ∧ count is_put (main (λ _, []) exact_add (answering 200 (Some (JArr [])))
                    (Stored (Doc saved_tokens))).2 = 0.
Proof.
  refine (no_activity_no_update (λ _, []) exact_add (answering 200 (Some (JArr [])))
            (Stored (Doc saved_tokens)) (JStr (lit "abc")) (Stored (Doc saved_tokens))
            [OpenRead; Console UsingExistingToken] JNull (Stored (Doc saved_tokens))
            [Get (JStr (lit "abc")) ATHLETE_ID; Console (NoActivitiesFound ATHLETE_ID)]
            _ _ _); vm_compute; reflexivity.
Defined.

(** X27: an activity without the key ["id"] makes the script raise
    [KeyError] at line 236, after the new description is computed and
    before any PUT. *)
Theorem main_without_id (format_value : json → str)
    (float_add : Q → number → option number) (E : env)
    (file : token_file) (tok : json) (file1 : token_file) (evs1 : list event)
    (m : gmap str json) (file2 : token_file) (evs2 : list event)
    (description : str) (word_count : nat) :
  get_access_token float_add E CLIENT_ID CLIENT_SECRET file = (Returns tok, file1, evs1) →
  get_recent_activity E tok ATHLETE_ID file1 = (Returns (JObj m), file2, evs2) →
  truthy (JObj m) = true →
  new_description format_value (JObj m) = Returns (description, word_count) →
  m !! lit "id" = None →
  main format_value float_add E file
  = (Raises KeyError, file2,
     Console GettingAccessToken :: evs1
     ++ Console AccessTokenReceived :: Console FetchingActivity :: evs2
     ++ [Console UpdatingDescription]).
Proof.
  intros Htoken Hactivity Hfound Hnew Hid.
  unfold main. unfold_script. cbn -[lookup new_description].
  rewrite Htoken. cbn -[lookup new_description].
  rewrite Hactivity. cbn -[lookup new_description].
  rewrite Hfound. cbn -[lookup new_description].
  rewrite Hnew. cbn -[lookup]. by rewrite Hid.
Qed.

Lemma main_without_id_witness :
  main (λ _, []) exact_add (answering 200 (Some (JArr [morning_run])))
    (Stored (Doc saved_tokens))
  = (Raises KeyError, Stored (Doc saved_tokens),
     Console GettingAccessToken :: [OpenRead; Console UsingExistingToken]
     ++ Console AccessTokenReceived :: Console FetchingActivity
        :: [Get (JStr (lit "abc")) ATHLETE_ID]
     ++ [Console UpdatingDescription]).
Proof.
  refine (main_without_id (λ _, []) exact_add (answering 200 (Some (JArr [morning_run])))
            (Stored (Doc saved_tokens)) (JStr (lit "abc")) (Stored (Doc saved_tokens))
            [OpenRead; Console UsingExistingToken] morning_run_fields
            (Stored (Doc saved_tokens)) [Get (JStr (lit "abc")) ATHLETE_ID]
            (lit "Nice day" ++ [LF; LF] ++ lit "yap score: 4") 4
            _ _ _ _ _); vm_compute; reflexivity.
Defined.

(** ** The callback listener *)

Lemma do_GET_parsed params stored :
  parsed params →
  do_GET params stored
  = Returns match code_of params with
            | Some code =>
                (Some code,
                 {| page_status := 200;
                    page_body :=
                      lit "Authentication successful! You can close this window." |})
            | None =>
                (stored,
                 {| page_status := 400;
                    page_body := lit "Authentication failed. No code received." |})
            end.
Proof.
  intros Hparsed. unfold do_GET, code_of.
  destruct (params !! lit "code") as [[| code values] |] eqn:Hcode; [| done | done].
  by destruct (Hparsed (lit "code")).
Qed.

(** X28: the listener answers 200 to a request that carries a code
    and 400 to one that does not.  After any sequence of requests the
    code it holds is the first value of the last request that carried
    one; requests without a code leave the code that is held as it
    is. *)
Theorem listener_keeps_last_code requests stored :
  Forall parsed requests →
  (serve requests stored).1
  = match last (omap code_of requests) with
    | Some code => Some code
    | None => stored
    end
  ∧ page_status <$> (serve requests stored).2
    = (λ params, match code_of params with
                 | Some _ => 200%Z
                 | None => 400%Z
                 end) <$> requests.
Proof.
  intros Hparsed. revert stored.
  induction Hparsed as [| params requests' Hp _ IH]; intros stored; [done |].
  cbn [serve]. rewrite (do_GET_parsed params stored Hp).
  cbn [omap fmap list_fmap]. destruct (code_of params) as [code |] eqn:Hcode.
  - destruct (IH (Some code)) as [IH1 IH2].
    destruct (serve requests' (Some code)) as [final pages]. cbn in *.
    rewrite !Hcode. split; [| by rewrite IH2].
    rewrite IH1. change (list_omap _ _ code_of requests') with (omap code_of requests').
    rewrite last_cons. by destruct (last (omap code_of requests')).
  - destruct (IH stored) as [IH1 IH2].
    destruct (serve requests' stored) as [final pages]. cbn in *.
    rewrite !Hcode. split; [done | by rewrite IH2].
Qed.

Lemma listener_keeps_last_code_witness :
  (serve [{[lit "error" := [lit "access_denied"]]}; {[lit "code" := [lit "abc"; lit "x"]]};
          ∅; {[lit "code" := [lit "def"]]}; {[lit "state" := [lit "s"]]}] None).1
  = Some (lit "def")
  ∧ page_status <$> (serve [{[lit "error" := [lit "access_denied"]]};
                            {[lit "code" := [lit "abc"; lit "x"]]};
                            ∅; {[lit "code" := [lit "def"]]};
                            {[lit "state" := [lit "s"]]}] None).2
    = [400; 200; 400; 200; 400]%Z.
Proof.
  refine (listener_keeps_last_code
            [{[lit "error" := [lit "access_denied"]]}; {[lit "code" := [lit "abc"; lit "x"]]};
             ∅; {[lit "code" := [lit "def"]]}; {[lit "state" := [lit "s"]]}] None _).
  repeat constructor; intros name Hname;
    apply (f_equal (λ o, match o with Some [] => true | _ => false end)) in Hname;
    revert Hname.
  - rewrite lookup_singleton. by case_decide.
  - rewrite lookup_singleton. by case_decide.
  - by rewrite lookup_empty.
  - rewrite lookup_singleton. by case_decide.
  - rewrite lookup_singleton. by case_decide.
Defined.
